(** * STween: a shallow embedding of the tween registry and its update loop

    The development follows the two header revisions of the library:
    [STween.h] (index based swap-with-last compaction, by-pointer and
    by-value tweens) and the earlier revision (compaction through
    [std::find] and [operator==]), which lives in [Module Part000].

    Modelling choices.
    - [float] is IEEE-754 binary32, taken from the Standard Library's
      executable specification [SpecFloat] at precision 24 and maximal
      exponent 128; every C++ [float] operation is one correctly rounded
      binary32 operation (no extended intermediate precision, no fused
      multiply-add).
    - [int] is [Z]; signed overflow is undefined in C++ and no registry of
      2^31 records is considered.
    - A [T*] is an optional address ([None] is [nullptr]); caller-owned
      storage is a finite map from addresses to values.
    - A [std::function] is an optional callback identifier ([None] is the
      empty function); invoking a callback and storing through a pointer
      are recorded, in program order, as events. What a callback does to
      the caller's storage is a parameter of the execution of the events;
      callbacks are assumed not to re-enter the registry (the header gives
      no protection against that). *)

From Stdlib Require Import ZArith SpecFloat Permutation.
From stdpp Require Import base option list gmap.

#[local] Set Warnings "-register-all".
#[local] Open Scope Z_scope.

(** ** Binary32 arithmetic *)

Module F32.

Definition prec : Z := 24.
Definition emax : Z := 128.

Definition float : Type := spec_float.

Definition add : float -> float -> float := SFadd prec emax.
Definition sub : float -> float -> float := SFsub prec emax.
Definition mul : float -> float -> float := SFmul prec emax.
Definition div : float -> float -> float := SFdiv prec emax.
Definition ltb : float -> float -> bool := SFltb.
Definition leb : float -> float -> bool := SFleb.
Definition eqb : float -> float -> bool := SFeqb.

(** Conversion of an [int] literal to [float] (round to nearest even). *)
Definition of_Z (z : Z) : float := binary_normalize prec emax z 0 false.

(** Decimal literal [n / d] with [n] and [d] exactly representable: the
    correctly rounded quotient is the binary32 value of the literal. *)
Definition of_ratio (n d : Z) : float := div (of_Z n) (of_Z d).

Definition zero : float := Eval vm_compute in of_Z 0.
Definition one : float := Eval vm_compute in of_Z 1.
Definition two : float := Eval vm_compute in of_Z 2.
Definition minus_one : float := Eval vm_compute in of_Z (-1).
Definition half : float := Eval vm_compute in of_ratio 1 2.

(** [a >= b] of C++: false as soon as one side is NaN. *)
Definition geb (a b : float) : bool := leb b a.

(** The literals [1.70158f] and [1.525f] of the Back easings. *)
Definition back_s : float := Eval vm_compute in of_ratio 170158 100000.
Definition back_k : float := Eval vm_compute in of_ratio 1525 1000.

End F32.

Abbreviation float := F32.float.

(** ** The value type contract

    The easing formulas use, on the template parameter [T]: [T - T],
    [T + T], [T * k] and [T / k] for a [float] (or [int], converted) factor
    [k]; the earlier revision also compares [T] values with [==]. *)

Class TweenValue (T : Type) : Type := {
  vsub : T -> T -> T;
  vadd : T -> T -> T;
  vmul : T -> float -> T;
  vdiv : T -> float -> T;
  veqb : T -> T -> bool
}.

#[export] Instance float_TweenValue : TweenValue float := {|
  vsub := F32.sub;
  vadd := F32.add;
  vmul := F32.mul;
  vdiv := F32.div;
  veqb := F32.eqb
|}.

(** ** enum EasingFunction

    An unscoped enumeration: the field can hold integers that name no
    enumerator, so it is an integer with thirteen named values. *)

Module EasingFunction.
Definition Linear : Z := 0.
Definition QuadranticIn : Z := 1.
Definition QuadranticOut : Z := 2.
Definition QuadranticInOut : Z := 3.
Definition CubicIn : Z := 4.
Definition CubicOut : Z := 5.
Definition CubicInOut : Z := 6.
Definition QuintIn : Z := 7.
Definition QuintOut : Z := 8.
Definition QuintInOut : Z := 9.
Definition BackIn : Z := 10.
Definition BackOut : Z := 11.
Definition BackInOut : Z := 12.

(** The field names one of the thirteen enumerators. *)
Definition enumerated (e : Z) : Prop := 0 <= e <= 12.
End EasingFunction.

(** ** Addresses, callbacks, events *)

Definition addr : Type := nat.
Definition ptr : Type := option addr.
Definition nullptr : ptr := None.
Definition callback : Type := nat.

Inductive Event (T : Type) : Type :=
| EvWrite (p : ptr) (v : T)        (* [*p = v] *)
| EvStep (cb : callback) (v : T)   (* [stepCallback(v)] *)
| EvFinish (cb : callback).        (* [finishCallback()] *)

Arguments EvWrite {T} p v.
Arguments EvStep {T} cb v.
Arguments EvFinish {T} cb.

(** ** struct TweenData *)

Inductive TweenData (T : Type) : Type := mkTweenData {
  tweenID : Z;
  fromReady : bool;
  byPointer : bool;
  reversed : bool;
  initialValue : ptr;
  initialCpy : T;
  finalValue : T;
  duration : float;
  easing : Z;
  timeCounter : float;
  finishCallback : option callback;
  stepCallback : option callback;
  endTween : list (TweenData T)
}.

Arguments mkTweenData {T}.
Arguments tweenID {T} t.
Arguments fromReady {T} t.
Arguments byPointer {T} t.
Arguments reversed {T} t.
Arguments initialValue {T} t.
Arguments initialCpy {T} t.
Arguments finalValue {T} t.
Arguments duration {T} t.
Arguments easing {T} t.
Arguments timeCounter {T} t.
Arguments finishCallback {T} t.
Arguments stepCallback {T} t.
Arguments endTween {T} t.

(** Field assignments. *)

Section Setters.
Context {T : Type}.
Implicit Type t : TweenData T.

Definition set_tweenID (x : Z) t : TweenData T :=
  mkTweenData x (fromReady t) (byPointer t) (reversed t) (initialValue t)
    (initialCpy t) (finalValue t) (duration t) (easing t) (timeCounter t)
    (finishCallback t) (stepCallback t) (endTween t).

Definition set_fromReady (x : bool) t : TweenData T :=
  mkTweenData (tweenID t) x (byPointer t) (reversed t) (initialValue t)
    (initialCpy t) (finalValue t) (duration t) (easing t) (timeCounter t)
    (finishCallback t) (stepCallback t) (endTween t).

Definition set_reversed (x : bool) t : TweenData T :=
  mkTweenData (tweenID t) (fromReady t) (byPointer t) x (initialValue t)
    (initialCpy t) (finalValue t) (duration t) (easing t) (timeCounter t)
    (finishCallback t) (stepCallback t) (endTween t).

Definition set_finalValue (x : T) t : TweenData T :=
  mkTweenData (tweenID t) (fromReady t) (byPointer t) (reversed t)
    (initialValue t) (initialCpy t) x (duration t) (easing t)
    (timeCounter t) (finishCallback t) (stepCallback t) (endTween t).

Definition set_duration (x : float) t : TweenData T :=
  mkTweenData (tweenID t) (fromReady t) (byPointer t) (reversed t)
    (initialValue t) (initialCpy t) (finalValue t) x (easing t)
    (timeCounter t) (finishCallback t) (stepCallback t) (endTween t).

Definition set_easing (x : Z) t : TweenData T :=
  mkTweenData (tweenID t) (fromReady t) (byPointer t) (reversed t)
    (initialValue t) (initialCpy t) (finalValue t) (duration t) x
    (timeCounter t) (finishCallback t) (stepCallback t) (endTween t).

Definition set_timeCounter (x : float) t : TweenData T :=
  mkTweenData (tweenID t) (fromReady t) (byPointer t) (reversed t)
    (initialValue t) (initialCpy t) (finalValue t) (duration t) (easing t)
    x (finishCallback t) (stepCallback t) (endTween t).

Definition set_finishCallback (x : option callback) t : TweenData T :=
  mkTweenData (tweenID t) (fromReady t) (byPointer t) (reversed t)
    (initialValue t) (initialCpy t) (finalValue t) (duration t) (easing t)
    (timeCounter t) x (stepCallback t) (endTween t).

Definition set_stepCallback (x : option callback) t : TweenData T :=
  mkTweenData (tweenID t) (fromReady t) (byPointer t) (reversed t)
    (initialValue t) (initialCpy t) (finalValue t) (duration t) (easing t)
    (timeCounter t) (finishCallback t) x (endTween t).

Definition set_endTween (x : list (TweenData T)) t : TweenData T :=
  mkTweenData (tweenID t) (fromReady t) (byPointer t) (reversed t)
    (initialValue t) (initialCpy t) (finalValue t) (duration t) (easing t)
    (timeCounter t) (finishCallback t) (stepCallback t) x.
End Setters.

(** ** The easing functions (private members of [STween<T>]) *)

Declare Scope f32_scope.
Delimit Scope f32_scope with f32.
Infix "+" := F32.add : f32_scope.
Infix "-" := F32.sub : f32_scope.
Infix "*" := F32.mul : f32_scope.
Infix "/" := F32.div : f32_scope.

Section Easings.
Context {T : Type} `{TweenValue T}.

#[local] Infix "|-|" := vsub (at level 50, left associativity).
#[local] Infix "|+|" := vadd (at level 50, left associativity).
#[local] Infix "|*|" := vmul (at level 40, left associativity).
#[local] Infix "|/|" := vdiv (at level 40, left associativity).
#[local] Open Scope f32_scope.

Implicit Types (position : float) (start endv : T).

Definition Linear position start endv : T :=
  (endv |-| start) |*| position |+| start.

Definition QuadIn position start endv : T :=
  (endv |-| start) |*| position |*| position |+| start.

Definition QuadOut position start endv : T :=
  ((endv |-| start) |*| F32.minus_one) |*| position
    |*| (position - F32.two) |+| start.

Definition QuadInOut position start endv : T :=
  let position := position * F32.two in
  if F32.ltb position F32.one then
    ((endv |-| start) |/| F32.two) |*| position |*| position |+| start
  else
    let position := position - F32.one in
    (((endv |-| start) |*| F32.one) |/| F32.two)
      |*| (position * (position - F32.two) - F32.one) |+| start.

Definition CubicIn position start endv : T :=
  (endv |-| start) |*| position |*| position |*| position |+| start.

Definition CubicOut position start endv : T :=
  let position := position - F32.one in
  (endv |-| start) |*| (position * position * position + F32.one)
    |+| start.

Definition CubicInOut position start endv : T :=
  let position := position * F32.two in
  if F32.ltb position F32.one then
    ((endv |-| start) |/| F32.two) |*| position |*| position |*| position
      |+| start
  else
    let position := position - F32.two in
    ((endv |-| start) |/| F32.two)
      |*| (position * position * position + F32.two) |+| start.

Definition QuintIn position start endv : T :=
  (endv |-| start) |*| position |*| position |*| position |*| position
    |*| position |+| start.

Definition QuintOut position start endv : T :=
  let position := position - F32.one in
  (endv |-| start)
    |*| (position * position * position * position * position + F32.one)
    |+| start.

Definition QuintInOut position start endv : T :=
  let position := position * F32.two in
  if F32.ltb position F32.one then
    ((endv |-| start) |/| F32.two)
      |*| (position * position * position * position * position) |+| start
  else
    let position := position - F32.two in
    ((endv |-| start) |/| F32.two)
      |*| (position * position * position * position * position + F32.two)
      |+| start.

Definition BackIn position start endv : T :=
  let s := F32.back_s in
  let postFix := position in
  (endv |-| start) |*| postFix |*| position
    |*| ((s + F32.one) * position - s) |+| start.

Definition BackOut position start endv : T :=
  let s := F32.back_s in
  let position := position - F32.one in
  (endv |-| start)
    |*| (position * position * ((s + F32.one) * position + s) + F32.one)
    |+| start.

Definition BackInOut position start endv : T :=
  let s := F32.back_s in
  let t := position in
  let b := start in
  let c := endv |-| start in
  let d := F32.one in
  let s := s * F32.back_k in
  let t := t / (d / F32.two) in
  if F32.ltb t F32.one then
    c |/| F32.two |*| (t * t * ((s + F32.one) * t - s)) |+| b
  else
    let t := t - F32.two in
    let postFix := t in
    c |/| F32.two |*| (postFix * t * ((s + F32.one) * t + s) + F32.two)
      |+| b.

(** The [switch (tween.easing)] of [Update]. *)
Definition ease (e : Z) position start endv : T :=
  match e with
  | 0 => Linear position start endv
  | 1 => QuadIn position start endv
  | 2 => QuadOut position start endv
  | 3 => QuadInOut position start endv
  | 4 => CubicIn position start endv
  | 5 => CubicOut position start endv
  | 6 => CubicInOut position start endv
  | 7 => QuintIn position start endv
  | 8 => QuintOut position start endv
  | 9 => QuintInOut position start endv
  | 10 => BackIn position start endv
  | 11 => BackOut position start endv
  | 12 => BackInOut position start endv
  | _ => Linear position start endv
  end%Z.
End Easings.

(** ** class STween *)

Record STween (T : Type) : Type := mkSTween {
  m_lastTweenIndex : Z;
  m_tweenVec : list (TweenData T)
}.

Arguments mkSTween {T}.
Arguments m_lastTweenIndex {T} s.
Arguments m_tweenVec {T} s.

(** Caller-owned storage. *)
Abbreviation heap T := (gmap addr T).

(** The caller's callbacks: what the invocation of a callback does to the
    caller's storage. A step callback is given the value ([Some v]), a
    finish callback nothing ([None]); the result [None] is a callback whose
    behaviour is undefined. *)
Abbreviation Callbacks T := (callback -> option T -> heap T -> option (heap T)).

(** What one iteration of the evaluation loop of [Update] leaves behind. *)
Record Outcome (T : Type) : Type := mkOutcome {
  out_tween : TweenData T;        (* the record as left in the vector *)
  out_events : list (Event T);    (* stores and callback invocations *)
  out_delete : bool;              (* [counter] pushed on [tweensToDelete] *)
  out_add : list (TweenData T)    (* records pushed on [tweensToAdd] *)
}.

Arguments mkOutcome {T}.
Arguments out_tween {T} o.
Arguments out_events {T} o.
Arguments out_delete {T} o.
Arguments out_add {T} o.

(** The locals of [Update] after its evaluation loop. *)
Record Pass (T : Type) : Type := mkPass {
  pass_vec : list (TweenData T);
  pass_events : list (Event T);
  tweensToAdd : list (TweenData T);
  tweensToDelete : list Z
}.

Arguments mkPass {T}.
Arguments pass_vec {T} p.
Arguments pass_events {T} p.
Arguments tweensToAdd {T} p.
Arguments tweensToDelete {T} p.

Section Registry.
Context {T : Type} `{TweenValue T}.

(** A default-initialised [T]: whatever [finalValue] holds before [To]. *)
Variable indeterminate : T.

Implicit Types (s : STween T) (tween : TweenData T) (deltaTime : float).

(** [STween<T>::STween()] *)
Definition STween_new : STween T := mkSTween (-1) [].

Definition ReleaseTweens s : STween T := mkSTween (-1) [].

(** [From(T* initVal)] of the earlier revision: reads [*initVal];
    undefined ([None]) when the pointer is null or names no storage.
    [STween.h] declares the same member with the same assignments, but its
    first statement constructs [TweenData<T>(m_lastTweenIndex, initVal)]
    and [TweenData] has no constructor of two arguments, so the member
    cannot be instantiated there: in [STween.h] a by-pointer record reaches
    the registry through [AddTween] or [AddTweens] only. *)
Definition From (initVal : ptr) (h : heap T) s : option (STween T) :=
  match initVal with
  | Some a =>
      match h !! a with
      | Some v =>
          let tween :=
            mkTweenData (m_lastTweenIndex s) true true false initVal v
              indeterminate F32.zero EasingFunction.Linear F32.zero
              None None [] in
          Some (mkSTween (m_lastTweenIndex s + 1) (m_tweenVec s ++ [tween]))
      | None => None
      end
  | None => None
  end.

(** [From(T initVal)] *)
Definition FromValue (initVal : T) s : STween T :=
  let tween :=
    mkTweenData (m_lastTweenIndex s) true false false nullptr initVal
      indeterminate F32.zero EasingFunction.Linear F32.zero None None [] in
  mkSTween (m_lastTweenIndex s + 1) (m_tweenVec s ++ [tween]).

(** [m_tweenVec[m_lastTweenIndex].field = x]: undefined ([None]) when the
    index is outside the vector. *)
Definition at_last (f : TweenData T -> TweenData T) s : option (STween T) :=
  if bool_decide (0 <= m_lastTweenIndex s) then
    match m_tweenVec s !! Z.to_nat (m_lastTweenIndex s) with
    | Some tween =>
        Some (mkSTween (m_lastTweenIndex s)
                (<[Z.to_nat (m_lastTweenIndex s) := f tween]> (m_tweenVec s)))
    | None => None
    end
  else None.

Definition To (finalVal : T) s := at_last (set_finalValue finalVal) s.
Definition Time (sec : float) s := at_last (set_duration sec) s.
Definition OnFinish (endCallback : option callback) s :=
  at_last (set_finishCallback endCallback) s.
Definition OnStep (cb : option callback) s :=
  at_last (set_stepCallback cb) s.
Definition Reversed (isReversed : bool) s :=
  at_last (set_reversed isReversed) s.
Definition Easing (easingType : Z) s := at_last (set_easing easingType) s.

Definition GetTweens s : list (TweenData T) := m_tweenVec s.

(** [Chain(STween<T>* chain)]: [chain] is the pointed-to registry as it
    is at the call. *)
Definition Chain (chain : STween T) s :=
  at_last (set_endTween (GetTweens chain)) s.

Definition AddTween tween s : STween T :=
  mkSTween (m_lastTweenIndex s + 1)
    (m_tweenVec s ++ [set_tweenID (m_lastTweenIndex s) tween]).

Definition AddTweens (tweens : list (TweenData T)) s : STween T :=
  fold_left (fun s tween => AddTween tween s) tweens s.

(** *** Update *)

Definition write_events tween (value : T) : list (Event T) :=
  if byPointer tween then [EvWrite (initialValue tween) value] else [].

Definition step_events tween (value : T) : list (Event T) :=
  match stepCallback tween with
  | Some cb => [EvStep cb value]
  | None => []
  end.

Definition finish_events tween : list (Event T) :=
  match finishCallback tween with
  | Some cb => [EvFinish cb]
  | None => []
  end.

(** The value computed before the completion test. *)
Definition tween_value tween : T :=
  let timePos := F32.div (timeCounter tween) (duration tween) in
  let start := if reversed tween then finalValue tween else initialCpy tween in
  let endv := if reversed tween then initialCpy tween else finalValue tween in
  ease (easing tween) timePos start endv.

(** The value stored on completion. *)
Definition snap_value tween : T :=
  if reversed tween then initialCpy tween else finalValue tween.

(** The body of [for (auto &tween : m_tweenVec)]. *)
Definition Update_body deltaTime (counter : Z) tween : Outcome T :=
  if fromReady tween then
    let value := tween_value tween in
    let ev := write_events tween value ++ step_events tween value in
    let tween := set_tweenID counter tween in
    if F32.geb (timeCounter tween) (duration tween) then
      let ev_snap := write_events tween (snap_value tween) in
      let tween := set_fromReady false tween in
      let ev_fin := finish_events tween in
      let toAdd := endTween tween in
      mkOutcome
        (set_timeCounter (F32.add (timeCounter tween) deltaTime) tween)
        (ev ++ ev_snap ++ ev_fin) true toAdd
    else
      mkOutcome
        (set_timeCounter (F32.add (timeCounter tween) deltaTime) tween)
        ev false []
  else
    mkOutcome tween [] true [].

Fixpoint Update_loop deltaTime (counter : Z) (vec : list (TweenData T))
  : Pass T :=
  match vec with
  | [] => mkPass [] [] [] []
  | tween :: rest =>
      let o := Update_body deltaTime counter tween in
      let p := Update_loop deltaTime (counter + 1) rest in
      mkPass (out_tween o :: pass_vec p)
        (out_events o ++ pass_events p)
        (out_add o ++ tweensToAdd p)
        ((if out_delete o then [counter] else []) ++ tweensToDelete p)
  end.

(** One iteration of the deletion loop: the last record is moved onto
    position [i] and the vector shrinks by one. [Update] only reaches it
    with [i] inside a non-empty vector ([Update_loop_delete_bound]). *)
Definition swap_remove (i : Z) s : STween T :=
  match last (m_tweenVec s) with
  | Some back =>
      mkSTween (m_lastTweenIndex s - 1)
        (removelast (<[Z.to_nat i := back]> (m_tweenVec s)))
  | None => s
  end.

(** [for (auto it = tweensToDelete.rbegin(); ...)] *)
Definition delete_loop (toDelete : list Z) s : STween T :=
  fold_left (fun s i => swap_remove i s) (rev toDelete) s.

Definition Update deltaTime s : STween T * list (Event T) :=
  let p := Update_loop deltaTime 0 (m_tweenVec s) in
  let s := mkSTween (m_lastTweenIndex s) (pass_vec p) in
  let s := delete_loop (tweensToDelete p) s in
  let s := AddTweens (tweensToAdd p) s in
  (s, pass_events p).

(** *** Effect of the events on caller-owned storage *)

(** A store through a null pointer, or through a pointer that names no
    storage, is undefined ([None]); a callback does to the storage what
    [run] says. *)
Definition exec_event (run : Callbacks T) (h : heap T) (e : Event T)
  : option (heap T) :=
  match e with
  | EvWrite (Some a) v =>
      match h !! a with
      | Some _ => Some (<[a := v]> h)
      | None => None
      end
  | EvWrite None _ => None
  | EvStep cb v => run cb (Some v) h
  | EvFinish cb => run cb None h
  end.

Fixpoint exec_events (run : Callbacks T) (h : heap T) (es : list (Event T))
  : option (heap T) :=
  match es with
  | [] => Some h
  | e :: es' =>
      match exec_event run h e with
      | Some h' => exec_events run h' es'
      | None => None
      end
  end.

(** [Update] called once per element of [dts], events concatenated. *)
Fixpoint Updates (dts : list float) s : STween T * list (Event T) :=
  match dts with
  | [] => (s, [])
  | deltaTime :: dts' =>
      let '(s1, ev1) := Update deltaTime s in
      let '(s2, ev2) := Updates dts' s1 in
      (s2, ev1 ++ ev2)
  end.

End Registry.

(** ** Vocabulary of the statements *)

Section Vocabulary.
Context {T : Type} `{TweenValue T}.
Implicit Types (s : STween T) (tween : TweenData T) (deltaTime : float).

(** The completion test of [Update] succeeds on this record. *)
Definition completes tween : bool :=
  fromReady tween && F32.geb (timeCounter tween) (duration tween).

(** The record is evaluated and stays. *)
Definition running tween : bool :=
  fromReady tween && negb (F32.geb (timeCounter tween) (duration tween)).

(** A record that stays, as [Update] leaves it. *)
Definition advance deltaTime (counter : Z) tween : TweenData T :=
  set_timeCounter (F32.add (timeCounter tween) deltaTime)
    (set_tweenID counter tween).

(** A record that completes, as the evaluation loop leaves it. *)
Definition retire deltaTime (counter : Z) tween : TweenData T :=
  set_timeCounter (F32.add (timeCounter tween) deltaTime)
    (set_fromReady false (set_tweenID counter tween)).

(** The records that stay, in vector order, [counter] being the index of
    the first one. *)
Fixpoint survivors deltaTime (counter : Z) (vec : list (TweenData T))
  : list (TweenData T) :=
  match vec with
  | [] => []
  | tween :: rest =>
      (if running tween then [advance deltaTime counter tween] else [])
        ++ survivors deltaTime (counter + 1) rest
  end.

(** The chain lists of the completing records, concatenated in vector
    order. *)
Fixpoint chained (vec : list (TweenData T)) : list (TweenData T) :=
  match vec with
  | [] => []
  | tween :: rest =>
      (if completes tween then endTween tween else []) ++ chained rest
  end.

(** Identifiers [first], [first + 1], ... given to a list of records. *)
Definition renumber (first : Z) (l : list (TweenData T))
  : list (TweenData T) :=
  imap (fun k c => set_tweenID (first + Z.of_nat k) c) l.

(** [m_lastTweenIndex] is the index of the last stored record. *)
Definition STween_inv s : Prop :=
  m_lastTweenIndex s = Z.of_nat (length (m_tweenVec s)) - 1.

(** [timeCounter] after [Update] was called with each of [dts], starting
    from zero. *)
Definition elapsed (dts : list float) : float :=
  fold_left F32.add dts F32.zero.

(** The record with its two ends exchanged and its direction flipped. *)
Definition mirror tween : TweenData T :=
  mkTweenData (tweenID tween) (fromReady tween) (byPointer tween)
    (negb (reversed tween)) (initialValue tween) (finalValue tween)
    (initialCpy tween) (duration tween) (easing tween) (timeCounter tween)
    (finishCallback tween) (stepCallback tween) (endTween tween).

(** Two records that are the same or mirror images of each other. *)
Definition mirrored (tween1 tween2 : TweenData T) : Prop :=
  tween2 = tween1 \/ tween2 = mirror tween1.

(** Two registries that agree up to mirror images of their records. *)
Definition STween_mirrored (s1 s2 : STween T) : Prop :=
  m_lastTweenIndex s1 = m_lastTweenIndex s2
  /\ Forall2 mirrored (m_tweenVec s1) (m_tweenVec s2).

(** [m_tweenVec[m_lastTweenIndex]], the record the builder methods
    assign to. *)
Definition current s : option (TweenData T) :=
  if bool_decide (0 <= m_lastTweenIndex s) then
    m_tweenVec s !! Z.to_nat (m_lastTweenIndex s)
  else None.

(** A record with no target storage and no chained records. *)
Definition by_value_only tween : Prop :=
  byPointer tween = false /\ endTween tween = [].

Definition is_write (e : Event T) : bool :=
  match e with EvWrite _ _ => true | _ => false end.



(** Two records that agree in everything but [tweenID]. *)
Definition same_but_id (tween1 tween2 : TweenData T) : Prop :=
  set_tweenID 0 tween1 = set_tweenID 0 tween2.

(** The record is by-value or inactive, or its [initialValue] names
    storage of [h]. *)
Definition valid_target (h : heap T) tween : bool :=
  negb (fromReady tween && byPointer tween)
  || match initialValue tween with
     | Some a => match h !! a with Some _ => true | None => false end
     | None => false
     end.

(** [Update] stores through [target] for this record. *)
Definition writes_to (target : addr) tween : bool :=
  fromReady tween && byPointer tween
  && bool_decide (initialValue tween = Some target).


(** What the evaluation loop stores and passes to the callbacks for one
    active record. *)
Definition events_of tween : list (Event T) :=
  (write_events tween (tween_value tween)
     ++ step_events tween (tween_value tween))
    ++ (if completes tween
        then write_events tween (snap_value tween) ++ finish_events tween
        else []).

(** What the evaluation loop of [Update] does for one record, active or
    not. *)
Definition block tween : list (Event T) :=
  if fromReady tween then events_of tween else [].

(** The builder methods as one family, and the field each assigns. *)
Inductive Builder : Type :=
| BuildTo (finalVal : T)
| BuildTime (sec : float)
| BuildOnFinish (endCallback : option callback)
| BuildOnStep (cb : option callback)
| BuildChain (chain : STween T)
| BuildReversed (isReversed : bool)
| BuildEasing (easingType : Z).

Definition build (b : Builder) s : option (STween T) :=
  match b with
  | BuildTo finalVal => To finalVal s
  | BuildTime sec => Time sec s
  | BuildOnFinish endCallback => OnFinish endCallback s
  | BuildOnStep cb => OnStep cb s
  | BuildChain chain => Chain chain s
  | BuildReversed isReversed => Reversed isReversed s
  | BuildEasing easingType => Easing easingType s
  end.

Definition same_field (b1 b2 : Builder) : bool :=
  match b1, b2 with
  | BuildTo _, BuildTo _ | BuildTime _, BuildTime _
  | BuildOnFinish _, BuildOnFinish _ | BuildOnStep _, BuildOnStep _
  | BuildChain _, BuildChain _ | BuildReversed _, BuildReversed _
  | BuildEasing _, BuildEasing _ => true
  | _, _ => false
  end.

(** The field assignment a builder method performs. *)
Definition assignment (b : Builder) : TweenData T -> TweenData T :=
  match b with
  | BuildTo finalVal => set_finalValue finalVal
  | BuildTime sec => set_duration sec
  | BuildOnFinish endCallback => set_finishCallback endCallback
  | BuildOnStep cb => set_stepCallback cb
  | BuildChain chain => set_endTween (m_tweenVec chain)
  | BuildReversed isReversed => set_reversed isReversed
  | BuildEasing easingType => set_easing easingType
  end.
End Vocabulary.

Arguments BuildTo {T}.
Arguments BuildTime {T}.
Arguments BuildOnFinish {T}.
Arguments BuildOnStep {T}.
Arguments BuildChain {T}.
Arguments BuildReversed {T}.
Arguments BuildEasing {T}.

(** ** Several registries and the storage they write to

    [Chain] takes a pointer to another registry, so the registries live in
    a store and a call names the registry it is made on. *)

Record World (T : Type) : Type := mkWorld {
  registries : gmap nat (STween T);
  storage : heap T;
  log : list (Event T)
}.

Arguments mkWorld {T}.
Arguments registries {T} w.
Arguments storage {T} w.
Arguments log {T} w.

Inductive Call (T : Type) : Type :=
| CallFrom (initVal : ptr)
| CallFromValue (initVal : T)
| CallTo (finalVal : T)
| CallTime (sec : float)
| CallOnFinish (cb : option callback)
| CallOnStep (cb : option callback)
| CallChain (chain : nat)
| CallReversed (isReversed : bool)
| CallEasing (easingType : Z)
| CallReleaseTweens
| CallAddTweens (tweens : list (TweenData T))
| CallAddTween (tween : TweenData T)
| CallUpdate (deltaTime : float).

Arguments CallFrom {T}.
Arguments CallFromValue {T}.
Arguments CallTo {T}.
Arguments CallTime {T}.
Arguments CallOnFinish {T}.
Arguments CallOnStep {T}.
Arguments CallChain {T}.
Arguments CallReversed {T}.
Arguments CallEasing {T}.
Arguments CallReleaseTweens {T}.
Arguments CallAddTweens {T}.
Arguments CallAddTween {T}.
Arguments CallUpdate {T}.

Section Worlds.
Context {T : Type} `{TweenValue T}.
Variable indeterminate : T.
Variable run : Callbacks T.

Definition put (this : nat) (s : STween T) (w : World T) : World T :=
  mkWorld (<[this := s]> (registries w)) (storage w) (log w).

(** One member call on the registry [this]; [None] is undefined
    behaviour (no such registry, no current record, a store through a
    pointer that is null or names no storage, an undefined callback).
    [CallFrom] is [From] of a pointer with the body both revisions give
    it, which only the earlier revision can instantiate. *)
Definition call (this : nat) (c : Call T) (w : World T) : option (World T) :=
  match registries w !! this with
  | None => None
  | Some s =>
      match c with
      | CallFrom initVal =>
          option_map (fun s' => put this s' w)
            (From indeterminate initVal (storage w) s)
      | CallFromValue initVal =>
          Some (put this (FromValue indeterminate initVal s) w)
      | CallTo finalVal =>
          option_map (fun s' => put this s' w) (To finalVal s)
      | CallTime sec =>
          option_map (fun s' => put this s' w) (Time sec s)
      | CallOnFinish cb =>
          option_map (fun s' => put this s' w) (OnFinish cb s)
      | CallOnStep cb =>
          option_map (fun s' => put this s' w) (OnStep cb s)
      | CallChain chain =>
          match registries w !! chain with
          | Some other =>
              option_map (fun s' => put this s' w) (Chain other s)
          | None => None
          end
      | CallReversed isReversed =>
          option_map (fun s' => put this s' w) (Reversed isReversed s)
      | CallEasing easingType =>
          option_map (fun s' => put this s' w) (Easing easingType s)
      | CallReleaseTweens => Some (put this (ReleaseTweens s) w)
      | CallAddTweens tweens => Some (put this (AddTweens tweens s) w)
      | CallAddTween tween => Some (put this (AddTween tween s) w)
      | CallUpdate deltaTime =>
          let '(s', ev) := Update deltaTime s in
          option_map
            (fun h' => mkWorld (<[this := s']> (registries w)) h' (log w ++ ev))
            (exec_events run (storage w) ev)
      end
  end.

Fixpoint calls (this : nat) (cs : list (Call T)) (w : World T)
  : option (World T) :=
  match cs with
  | [] => Some w
  | c :: cs' =>
      match call this c w with
      | Some w' => calls this cs' w'
      | None => None
      end
  end.

End Worlds.

(** ** The earlier revision of the header

    Same records and builder methods ([byPointer] is called [byReference]
    there and is never read); [Update] stores through [initialValue]
    unconditionally, does not renumber, and removes the completed records
    by searching for a copy of them with [std::find]. *)

Module Part000.
Section Part000.
Context {T : Type} `{TweenValue T}.
Implicit Types (s : STween T) (tween td : TweenData T) (deltaTime : float).

(** [TweenData::operator==] *)
Definition TweenData_eqb tween td : bool :=
  (tweenID tween =? tweenID td)
  && bool_decide (initialValue tween = initialValue td)
  && veqb (finalValue tween) (finalValue td)
  && F32.eqb (timeCounter tween) (timeCounter td)
  && Bool.eqb (reversed tween) (reversed td)
  && (easing tween =? easing td).

(** What one iteration of the evaluation loop leaves behind: the record,
    the events, the copy pushed on [tweensToDelete] if any, the records
    pushed on [tweensToAdd]. *)
Definition Update_body deltaTime tween
  : TweenData T * list (Event T) * list (TweenData T) * list (TweenData T) :=
  if fromReady tween then
    let value := tween_value tween in
    let ev := [EvWrite (initialValue tween) value] ++ step_events tween value in
    if F32.geb (timeCounter tween) (duration tween) then
      let ev_snap := [EvWrite (initialValue tween) (snap_value tween)] in
      let tween := set_fromReady false tween in
      let ev_fin := finish_events tween in
      let toAdd := endTween tween in
      let toDelete := [tween] in
      (set_timeCounter (F32.add (timeCounter tween) deltaTime) tween,
       ev ++ ev_snap ++ ev_fin, toDelete, toAdd)
    else
      (set_timeCounter (F32.add (timeCounter tween) deltaTime) tween,
       ev, [], [])
  else (tween, [], [], []).

Fixpoint Update_loop deltaTime (vec : list (TweenData T))
  : list (TweenData T) * list (Event T) * list (TweenData T)
    * list (TweenData T) :=
  match vec with
  | [] => ([], [], [], [])
  | tween :: rest =>
      let '(tween', ev, del, add) := Update_body deltaTime tween in
      let '(vec', evs, dels, adds) := Update_loop deltaTime rest in
      (tween' :: vec', ev ++ evs, del ++ dels, add ++ adds)
  end.

(** [std::find] followed by [erase]: the first record equal to
    [oldTween] is removed, if there is one. *)
Fixpoint find_erase (oldTween : TweenData T) (vec : list (TweenData T))
  : option (list (TweenData T)) :=
  match vec with
  | [] => None
  | tween :: rest =>
      if TweenData_eqb tween oldTween then Some rest
      else option_map (cons tween) (find_erase oldTween rest)
  end.

Definition delete_one s (oldTween : TweenData T) : STween T :=
  match find_erase oldTween (m_tweenVec s) with
  | Some vec => mkSTween (m_lastTweenIndex s - 1) vec
  | None => s
  end.

Definition Update deltaTime s : STween T * list (Event T) :=
  let '(vec, ev, del, add) := Update_loop deltaTime (m_tweenVec s) in
  let s := mkSTween (m_lastTweenIndex s) vec in
  let s := fold_left delete_one del s in
  let s := AddTweens add s in
  (s, ev).

Fixpoint Updates (dts : list float) s : STween T * list (Event T) :=
  match dts with
  | [] => (s, [])
  | deltaTime :: dts' =>
      let '(s1, ev1) := Update deltaTime s in
      let '(s2, ev2) := Updates dts' s1 in
      (s2, ev1 ++ ev2)
  end.
End Part000.
End Part000.

(** ** Concrete programs *)

Module Demo.
(** What an uninitialised [float] happens to hold. *)
Definition garbage : float := S754_nan.

Definition f (n : Z) : float := F32.of_Z n.

(** The caller's variable [x], the registry [a] and a second registry
    [b]. *)
Definition x : addr := 0%nat.
Definition a : nat := 0%nat.
Definition b : nat := 1%nat.
Definition cbStep : callback := 1%nat.
Definition cbFinish : callback := 2%nat.

Definition world (x0 : float) : World float :=
  mkWorld {[ a := STween_new; b := STween_new ]} {[ x := x0 ]} [].

(** Callbacks that only look at the value they are given. *)
Definition observers : Callbacks float := fun _ _ h => Some h.

(** Step callbacks used as setters: each stores the value it is given in
    the caller's variable [y]; the finish callbacks do nothing. *)
Definition y : addr := 1%nat.

Definition setters : Callbacks float :=
  fun _ v h =>
    match v with
    | Some value =>
        match h !! y with
        | Some _ => Some (<[y := value]> h)
        | None => None
        end
    | None => Some h
    end.

Definition run (cs : list (Call float)) : option (World float) :=
  calls garbage observers a cs (world F32.zero).

(** The records of registry [a]. *)
Definition records (w : World float) : list (TweenData float) :=
  match registries w !! a with
  | Some s => m_tweenVec s
  | None => []
  end.

(** The record that
    [From(&x).To(10).Time(1).Easing(Linear).OnFinish(cbFinish)] describes,
    with [x == 0]. *)
Definition by_pointer_record : TweenData float :=
  mkTweenData (-1) true true false (Some x) F32.zero (f 10) F32.one
    EasingFunction.Linear F32.zero (Some cbFinish) None [].

(** [From(&x).To(10).Time(1)] with [x == 0], as both revisions build it. *)
Definition plain_registry : STween float :=
  mkSTween 0
    [mkTweenData (-1) true true false (Some x) F32.zero (f 10) F32.one
       EasingFunction.Linear F32.zero None None []].

(** [a.From(0.0f).To(1).Time(1).OnStep(cbStep)] *)
Definition by_value : list (Call float) :=
  [CallFromValue F32.zero; CallTo F32.one; CallTime F32.one;
   CallOnStep (Some cbStep)].

(** [a.From(0.0f).To(8).Time(2).OnStep(cbStep)] *)
Definition one_step : list (Call float) :=
  [CallFromValue F32.zero; CallTo (f 8); CallTime F32.two;
   CallOnStep (Some cbStep)].

(** A by-pointer record made by hand, as the header invites to, and
    handed to [AddTween]: [x] from 0 to 8 in two seconds. *)
Definition handmade : TweenData float :=
  mkTweenData 0 true true false (Some x) F32.zero (f 8) F32.two
    EasingFunction.Linear F32.zero None None [].

(** [a.From(0.0f).To(10).Time(1).OnStep(cbStep)], advanced past its
    duration in one call. *)
Definition overshoot : list (Call float) :=
  [CallFromValue F32.zero; CallTo (f 10); CallTime F32.one;
   CallOnStep (Some cbStep); CallUpdate (f 3)].

(** The same with [x] as target: [a.From(&x).To(10).Time(1).OnStep(cbStep)]. *)
Definition overshoot_by_pointer : list (Call float) :=
  [CallFrom (Some x); CallTo (f 10); CallTime F32.one;
   CallOnStep (Some cbStep); CallUpdate (f 3)].

(** Registry [b] holds one record; registry [a] holds a five second
    tween and a one second tween chained to [b]'s record, both one
    second old. *)
Definition chain_source : STween float :=
  mkSTween 0
    [mkTweenData (-1) true false false nullptr (f 7) (f 9) F32.one
       EasingFunction.Linear F32.zero None None []].

Definition two_with_chain : STween float :=
  mkSTween 1
    [mkTweenData 0 true false false nullptr F32.zero (f 10) (f 5)
       EasingFunction.Linear F32.one None None [];
     mkTweenData 1 true false false nullptr F32.zero (f 10) F32.one
       EasingFunction.Linear F32.one None None (GetTweens chain_source)].

(** The same state reached through the member functions, followed by the
    [Update] on which the one second tween completes:
    [b.From(7.0f).To(9).Time(1);]
    [a.From(0.0f).To(10).Time(5); a.From(0.0f).To(10).Time(1).Chain(&b);]
    [a.Update(1); a.Update(1);] *)
Definition chain_demo : option (World float) :=
  match
    calls garbage observers b
      [CallFromValue (f 7); CallTo (f 9); CallTime F32.one] (world F32.zero)
  with
  | Some w =>
      calls garbage observers a
        [CallFromValue F32.zero; CallTo (f 10); CallTime (f 5);
         CallFromValue F32.zero; CallTo (f 10); CallTime F32.one;
         CallChain b; CallUpdate F32.one; CallUpdate F32.one] w
  | None => None
  end.





(** A record whose [easing] field was set to
    [static_cast<EasingFunction>(13)]. *)
Definition unnamed_easing : TweenData float :=
  mkTweenData 0 true false false nullptr F32.zero (f 10) F32.one 13
    F32.half None (Some cbStep) [].

(** Three records appended by [From(1.0f)], [From(2.0f).Time(5)] and
    [From(3.0f).Time(5)]; the first has the duration [From] gave it. *)
Definition three_appended : list (Call float) :=
  [CallFromValue (f 1);
   CallFromValue (f 2); CallTime (f 5);
   CallFromValue (f 3); CallTime (f 5)].

(** A hand-made record that claims to be by-pointer but has no target,
    between two ordinary by-value records. *)
Definition with_null_target : STween float :=
  mkSTween 2
    [mkTweenData 0 true false false nullptr F32.zero (f 10) (f 5)
       EasingFunction.Linear F32.zero None (Some cbStep) [];
     mkTweenData 1 true true false nullptr F32.zero (f 10) (f 5)
       EasingFunction.Linear F32.zero None None [];
     mkTweenData 2 true false false nullptr F32.zero (f 10) (f 5)
       EasingFunction.Linear F32.zero (Some cbFinish) None []].

(** [From(&x)] with [x == 3] and nothing else: [To] and [Time] were never
    called. *)
Definition unconfigured : TweenData float :=
  mkTweenData (-1) true true false (Some x) (f 3) garbage F32.zero
    EasingFunction.Linear F32.zero None (Some cbStep) [].

(** Two records that [Update] dropped from the evaluation but the earlier
    revision still stores. *)
Definition left_overs : STween float :=
  mkSTween 1
    [mkTweenData 0 false true false (Some x) F32.zero (f 10) F32.one
       EasingFunction.Linear F32.two None None [];
     mkTweenData 1 false false false nullptr F32.zero (f 10) F32.one
       EasingFunction.Linear F32.two None (Some cbStep) []].

(** A one second by-pointer tween that is one second old, chained to
    [chain_source]'s record. *)
Definition due : TweenData float :=
  mkTweenData 0 true true false (Some x) F32.zero (f 10) F32.one
    EasingFunction.Linear F32.one (Some cbFinish) (Some cbStep)
    (GetTweens chain_source).

(** Two by-pointer tweens on [x], both running. *)
Definition two_running : STween float :=
  mkSTween 1
    [mkTweenData (-1) true true false (Some x) F32.zero (f 10) (f 5)
       EasingFunction.Linear F32.one None (Some cbStep) [];
     mkTweenData 0 true true true (Some x) F32.zero (f 10) (f 5)
       EasingFunction.CubicIn F32.one None None []].

(** [a.From(1.0f); a.AddTween(by_pointer_record);]: a by-value record
    that is due at once in front of the one second tween on [x]. The
    first [Update] removes the former and moves the latter onto its
    place. *)
Definition behind_due : STween float :=
  mkSTween 1
    [mkTweenData (-1) true false false nullptr (f 1) garbage F32.zero
       EasingFunction.Linear F32.zero None None [];
     mkTweenData 0 true true false (Some x) F32.zero (f 10) F32.one
       EasingFunction.Linear F32.zero (Some cbFinish) None []].

(** The one second tween on [x] in front of a five second tween to 20 on
    the same [x], both one second old. *)
Definition two_on_x : STween float :=
  mkSTween 1
    [mkTweenData 0 true true false (Some x) F32.zero (f 10) F32.one
       EasingFunction.Linear F32.one (Some cbFinish) None [];
     mkTweenData 1 true true false (Some x) F32.zero (f 20) (f 5)
       EasingFunction.Linear F32.one None None []].

(** [a.From(&x).To(10).Time(1).Easing(Linear).OnFinish(cbFinish)] with
    [x == 0], in the earlier revision, the only one in which [From] of a
    pointer can be instantiated. *)
Definition by_pointer : option (STween float) :=
  match From garbage (Some x) {[ x := F32.zero ]} STween_new with
  | Some s =>
      match To (f 10) s with
      | Some s =>
          match Time F32.one s with
          | Some s =>
              match Easing EasingFunction.Linear s with
              | Some s => OnFinish (Some cbFinish) s
              | None => None
              end
          | None => None
          end
      | None => None
      end
  | None => None
  end.

(** The registry, the storage and the events after [Update] of the
    earlier revision was called with each of [dts] on that registry. *)
Definition by_pointer_after (dts : list float)
  : option (STween float * heap float * list (Event float)) :=
  match by_pointer with
  | Some s =>
      let '(s', ev) := Part000.Updates dts s in
      option_map (fun h => (s', h, ev))
        (exec_events observers {[ x := F32.zero ]} ev)
  | None => None
  end.

(** The same record handed to [STween.h]:
    [a.AddTween(by_pointer_record)], then [Update] with each of [dts]. *)
Definition handed_over_after (dts : list float)
  : option (STween float * heap float * list (Event float)) :=
  let '(s', ev) := Updates dts (AddTween by_pointer_record STween_new) in
  option_map (fun h => (s', h, ev))
    (exec_events observers {[ x := F32.zero ]} ev).
End Demo.

(** * Properties *)

(** ** The evaluation loop *)

Section LoopFacts.
Context {T : Type} `{TweenValue T}.
Implicit Types (s : STween T) (tween : TweenData T) (deltaTime : float)
  (vec : list (TweenData T)).

Lemma running_completes_leftover tween :
  (running tween = true /\ completes tween = false /\ fromReady tween = true)
  \/ (running tween = false /\ completes tween = true /\ fromReady tween = true)
  \/ (running tween = false /\ completes tween = false /\ fromReady tween = false).
Proof.
  unfold running, completes.
  destruct (fromReady tween), (F32.geb (timeCounter tween) (duration tween));
    simpl; auto.
Qed.

Lemma Update_body_running deltaTime counter tween :
  running tween = true ->
  Update_body deltaTime counter tween =
    mkOutcome (advance deltaTime counter tween)
      (write_events tween (tween_value tween)
         ++ step_events tween (tween_value tween))
      false [].
Proof.
  unfold running, Update_body. intros Hr.
  apply andb_prop in Hr as [-> Hge]. apply negb_true_iff in Hge.
  simpl. rewrite Hge. reflexivity.
Qed.

Lemma Update_body_completes deltaTime counter tween :
  completes tween = true ->
  Update_body deltaTime counter tween =
    mkOutcome (retire deltaTime counter tween)
      ((write_events tween (tween_value tween)
          ++ step_events tween (tween_value tween))
         ++ write_events tween (snap_value tween) ++ finish_events tween)
      true (endTween tween).
Proof.
  unfold completes, Update_body. intros Hc.
  apply andb_prop in Hc as [-> Hge].
  simpl. rewrite Hge. reflexivity.
Qed.

Lemma Update_body_leftover deltaTime counter tween :
  fromReady tween = false ->
  Update_body deltaTime counter tween = mkOutcome tween [] true [].
Proof. unfold Update_body. intros ->. reflexivity. Qed.

Lemma out_delete_running deltaTime counter tween :
  out_delete (Update_body deltaTime counter tween) = negb (running tween).
Proof.
  destruct (running_completes_leftover tween) as [(Hr & _ & _)|[(Hr & Hc & _)|(Hr & _ & Hf)]].
  - rewrite Update_body_running, Hr by assumption. reflexivity.
  - rewrite Update_body_completes, Hr by assumption. reflexivity.
  - rewrite Update_body_leftover, Hr by assumption. reflexivity.
Qed.

Lemma out_tween_running deltaTime counter tween :
  running tween = true ->
  out_tween (Update_body deltaTime counter tween) = advance deltaTime counter tween.
Proof. intros Hr. rewrite Update_body_running by assumption. reflexivity. Qed.

Lemma out_add_chain deltaTime counter tween :
  out_add (Update_body deltaTime counter tween) =
    if completes tween then endTween tween else [].
Proof.
  destruct (running_completes_leftover tween) as [(Hr & Hc & _)|[(Hr & Hc & _)|(Hr & Hc & Hf)]].
  - rewrite Update_body_running, Hc by assumption. reflexivity.
  - rewrite Update_body_completes, Hc by assumption. reflexivity.
  - rewrite Update_body_leftover, Hc by assumption. reflexivity.
Qed.

Lemma Update_loop_app deltaTime counter vec1 vec2 :
  Update_loop deltaTime counter (vec1 ++ vec2) =
    let p1 := Update_loop deltaTime counter vec1 in
    let p2 := Update_loop deltaTime (counter + Z.of_nat (length vec1)) vec2 in
    mkPass (pass_vec p1 ++ pass_vec p2) (pass_events p1 ++ pass_events p2)
      (tweensToAdd p1 ++ tweensToAdd p2)
      (tweensToDelete p1 ++ tweensToDelete p2).
Proof.
  revert counter. induction vec1 as [|tween vec1 IH]; intros counter; simpl.
  - rewrite Z.add_0_r. destruct (Update_loop deltaTime counter vec2); reflexivity.
  - rewrite IH. simpl.
    replace (counter + 1 + Z.of_nat (length vec1))
      with (counter + Z.pos (Pos.of_succ_nat (length vec1))) by lia.
    f_equal; rewrite <- ?app_assoc; reflexivity.
Qed.

Lemma Update_loop_length deltaTime counter vec :
  length (pass_vec (Update_loop deltaTime counter vec)) = length vec.
Proof.
  revert counter. induction vec as [|tween vec IH]; intros counter; simpl;
    [reflexivity | rewrite IH; reflexivity].
Qed.

Lemma Update_loop_chained deltaTime counter vec :
  tweensToAdd (Update_loop deltaTime counter vec) = chained vec.
Proof.
  revert counter. induction vec as [|tween vec IH]; intros counter; simpl;
    [reflexivity | rewrite IH, out_add_chain; reflexivity].
Qed.

(** Every index pushed on [tweensToDelete] is an index of the vector. *)
Lemma Update_loop_delete_bound deltaTime counter vec i :
  In i (tweensToDelete (Update_loop deltaTime counter vec)) ->
  counter <= i < counter + Z.of_nat (length vec).
Proof.
  revert counter. induction vec as [|tween vec IH]; intros counter; simpl.
  - intros [].
  - rewrite in_app_iff. intros [Hi|Hi].
    + destruct (out_delete _); simpl in Hi; [|contradiction].
      destruct Hi as [<-|[]]. lia.
    + apply IH in Hi. lia.
Qed.

Lemma Updates_cons deltaTime (dts : list float) s :
  (Updates (deltaTime :: dts) s).2 =
    (Update deltaTime s).2 ++ (Updates dts (Update deltaTime s).1).2.
Proof.
  cbn [Updates]. destruct (Update deltaTime s) as [s1 ev1]. cbn [fst snd].
  destruct (Updates dts s1). reflexivity.
Qed.

Lemma Updates_cons_state deltaTime (dts : list float) s :
  (Updates (deltaTime :: dts) s).1 = (Updates dts (Update deltaTime s).1).1.
Proof.
  cbn [Updates]. destruct (Update deltaTime s) as [s1 ev1]. cbn [fst snd].
  destruct (Updates dts s1). reflexivity.
Qed.

Lemma survivors_app deltaTime counter vec1 vec2 :
  survivors deltaTime counter (vec1 ++ vec2) =
    survivors deltaTime counter vec1
      ++ survivors deltaTime (counter + Z.of_nat (length vec1)) vec2.
Proof.
  revert counter. induction vec1 as [|tween vec1 IH]; intros counter; simpl.
  - rewrite Z.add_0_r. reflexivity.
  - rewrite IH, <- app_assoc.
    replace (counter + 1 + Z.of_nat (length vec1))
      with (counter + Z.pos (Pos.of_succ_nat (length vec1))) by lia.
    reflexivity.
Qed.
End LoopFacts.

(** ** Compaction and the shape of the registry after [Update] *)

Section Compaction.
Context {T : Type} `{TweenValue T}.
Implicit Types (s : STween T) (tween : TweenData T) (deltaTime : float)
  (vec : list (TweenData T)).

Lemma removelast_back_perm (x : TweenData T) tail back :
  last (x :: tail) = Some back ->
  removelast (back :: tail) ≡ₚ tail.
Proof.
  destruct (decide (tail = [])) as [->|Hne].
  - reflexivity.
  - apply last_is_Some in Hne as [b Hb].
    rewrite last_cons, Hb. intros [= <-].
    apply last_Some in Hb as [tl ->].
    change (b :: tl ++ [b]) with ((b :: tl) ++ [b]).
    rewrite removelast_last.
    apply Permutation_cons_append.
Qed.

(** Removing the record that follows [pre]: the records after it are
    kept, in another order. *)
Lemma swap_remove_middle idx (pre : list (TweenData T)) x tail :
  exists tail',
    swap_remove (Z.of_nat (length pre)) (mkSTween idx (pre ++ x :: tail))
      = mkSTween (idx - 1) (pre ++ tail')
    /\ tail' ≡ₚ tail.
Proof.
  unfold swap_remove. simpl.
  destruct (last (pre ++ x :: tail)) as [back|] eqn:Hlast.
  - rewrite last_app_cons in Hlast.
    exists (removelast (back :: tail)). split.
    + rewrite Nat2Z.id.
      replace (length pre) with (length pre + 0)%nat at 1 by lia.
      rewrite insert_app_r. simpl.
      rewrite removelast_app by discriminate. reflexivity.
    + eapply removelast_back_perm; eassumption.
  - apply last_None in Hlast. destruct pre; discriminate.
Qed.

Lemma delete_loop_snoc (toDelete : list Z) i s :
  delete_loop (toDelete ++ [i]) s = delete_loop toDelete (swap_remove i s).
Proof. unfold delete_loop. rewrite rev_unit. reflexivity. Qed.

Lemma delete_loop_pass deltaTime vec :
  forall idx tail,
    let p := Update_loop deltaTime 0 vec in
    let s' := delete_loop (tweensToDelete p) (mkSTween idx (pass_vec p ++ tail)) in
    m_tweenVec s' ≡ₚ survivors deltaTime 0 vec ++ tail
    /\ m_lastTweenIndex s' = idx - Z.of_nat (length (tweensToDelete p)).
Proof.
  induction vec as [|x vec IH] using rev_ind; intros idx tail.
  - simpl. split; [reflexivity | lia].
  - cbv zeta. rewrite Update_loop_app, survivors_app. cbv zeta.
    rewrite Z.add_0_l. simpl.
    rewrite !app_nil_r, out_delete_running.
    destruct (running x) eqn:Hrun; simpl.
    + rewrite app_nil_r, <- !app_assoc. simpl.
      rewrite out_tween_running by assumption.
      apply IH.
    + rewrite delete_loop_snoc, <- app_assoc. simpl.
      rewrite <- (Update_loop_length deltaTime 0 vec).
      destruct (swap_remove_middle idx
                  (pass_vec (Update_loop deltaTime 0 vec))
                  (out_tween (Update_body deltaTime
                     (Z.of_nat (length (pass_vec (Update_loop deltaTime 0 vec)))) x))
                  tail) as (tail' & -> & Hperm).
      destruct (IH (idx - 1) tail') as [IHv IHi].
      split.
      * rewrite IHv, Hperm, app_nil_r. reflexivity.
      * rewrite IHi, length_app. simpl. lia.
Qed.

Lemma delete_count deltaTime counter vec :
  (length (tweensToDelete (Update_loop deltaTime counter vec))
     + length (survivors deltaTime counter vec) = length vec)%nat.
Proof.
  revert counter. induction vec as [|tween vec IH]; intros counter; simpl.
  - reflexivity.
  - rewrite !length_app, out_delete_running.
    specialize (IH (counter + 1)).
    destruct (running tween); simpl; lia.
Qed.

Lemma AddTweens_spec (tweens : list (TweenData T)) s :
  AddTweens tweens s =
    mkSTween (m_lastTweenIndex s + Z.of_nat (length tweens))
      (m_tweenVec s ++ renumber (m_lastTweenIndex s) tweens).
Proof.
  unfold AddTweens, renumber. revert s.
  induction tweens as [|tween tweens IH]; intros s; simpl.
  - rewrite Z.add_0_r, app_nil_r. destruct s; reflexivity.
  - rewrite IH. unfold AddTween. simpl. rewrite <- app_assoc. simpl.
    f_equal; [lia|]. do 2 f_equal.
    + f_equal. lia.
    + apply imap_ext. intros k c _. simpl. f_equal. lia.
Qed.

(** After [Update] the vector holds the records that stay (in some
    order), followed by the chain lists of the completed records with
    identifiers counted from [m_lastTweenIndex] after compaction. *)
Lemma Update_shape deltaTime s :
  exists kept,
    kept ≡ₚ survivors deltaTime 0 (m_tweenVec s)
    /\ m_tweenVec (Update deltaTime s).1 =
         kept ++ renumber
                   (m_lastTweenIndex s + Z.of_nat (length kept)
                      - Z.of_nat (length (m_tweenVec s)))
                   (chained (m_tweenVec s))
    /\ m_lastTweenIndex (Update deltaTime s).1 =
         m_lastTweenIndex s
           + Z.of_nat (length (m_tweenVec (Update deltaTime s).1))
           - Z.of_nat (length (m_tweenVec s)).
Proof.
  unfold Update. cbv zeta. simpl.
  pose proof (delete_loop_pass deltaTime (m_tweenVec s) (m_lastTweenIndex s) [])
    as Hpass.
  cbv zeta in Hpass. rewrite !app_nil_r in Hpass.
  destruct Hpass as [Hperm Hidx].
  set (p := Update_loop deltaTime 0 (m_tweenVec s)) in *.
  set (s' := delete_loop (tweensToDelete p)
               (mkSTween (m_lastTweenIndex s) (pass_vec p))) in *.
  assert (Hlen : Z.of_nat (length (tweensToDelete p))
                 = Z.of_nat (length (m_tweenVec s))
                   - Z.of_nat (length (m_tweenVec s'))).
  { pose proof (Permutation_length Hperm) as Hl.
    pose proof (delete_count deltaTime 0 (m_tweenVec s)) as Hc.
    fold p in Hc. lia. }
  exists (m_tweenVec s'). rewrite AddTweens_spec. simpl.
  replace (tweensToAdd p) with (chained (m_tweenVec s))
    by (symmetry; apply Update_loop_chained).
  split; [assumption|]. split.
  - f_equal. f_equal. lia.
  - rewrite length_app. unfold renumber. rewrite length_imap. lia.
Qed.
End Compaction.

(** ** The easing switch *)

Section EasingSwitch.
Context {T : Type} `{TweenValue T}.
Implicit Types (tween : TweenData T) (deltaTime : float).

Lemma ease_default (e : Z) position (start endv : T) :
  ~ EasingFunction.enumerated e ->
  ease e position start endv = Linear position start endv.
Proof.
  unfold EasingFunction.enumerated, ease. intros Hout.
  destruct e as [|p|p]; [lia| |reflexivity].
  do 4 (try (destruct p as [p|p|]; try reflexivity)); lia.
Qed.

(** C9. A record whose [easing] field holds an integer that names none of
    the thirteen enumerators is evaluated with the Linear formula: the
    value [Update] computes for it is [Linear(timePos, start, end)], and
    the stores and callback invocations of its loop iteration are those
    of the same record with [easing = Linear]. *)
Theorem unknown_easing_is_linear tween
  (Hout : ~ EasingFunction.enumerated (easing tween)) :
  tween_value tween =
    Linear (F32.div (timeCounter tween) (duration tween))
      (if reversed tween then finalValue tween else initialCpy tween)
      (if reversed tween then initialCpy tween else finalValue tween)
  /\ forall deltaTime counter,
       out_events (Update_body deltaTime counter tween) =
         out_events
           (Update_body deltaTime counter
              (set_easing EasingFunction.Linear tween)).
Proof.
  assert (Hval : tween_value tween
                 = tween_value (set_easing EasingFunction.Linear tween)).
  { unfold tween_value. simpl. rewrite ease_default by assumption.
    reflexivity. }
  split.
  - rewrite Hval. reflexivity.
  - intros deltaTime counter. clear Hval.
    destruct tween. simpl in Hout.
    unfold Update_body, tween_value, write_events, step_events,
      finish_events, snap_value. simpl.
    rewrite ease_default by assumption.
    destruct fromReady0; [destruct (F32.geb timeCounter0 duration0)|];
      reflexivity.
Qed.
End EasingSwitch.

Lemma unknown_easing_is_linear_witness :
  tween_value Demo.unnamed_easing = Demo.f 5
  /\ out_events (Update_body F32.half 0 Demo.unnamed_easing)
     = [EvStep Demo.cbStep (Demo.f 5)].
Proof.
  destruct (unknown_easing_is_linear Demo.unnamed_easing) as [Hv He].
  - unfold EasingFunction.enumerated. simpl. lia.
  - split.
    + rewrite Hv. vm_compute. reflexivity.
    + rewrite He. vm_compute. reflexivity.
Defined.

(** ** What [Update] keeps, drops and appends *)

Section UpdateShape.
Context {T : Type} `{TweenValue T}.
Implicit Types (s : STween T) (tween : TweenData T) (deltaTime : float)
  (vec : list (TweenData T)).

Lemma survivors_In deltaTime counter vec r :
  In r (survivors deltaTime counter vec) ->
  exists i tween,
    vec !! i = Some tween /\ running tween = true
    /\ r = advance deltaTime (counter + Z.of_nat i) tween.
Proof.
  revert counter. induction vec as [|tween vec IH]; intros counter; simpl.
  - intros [].
  - rewrite in_app_iff. intros [Hr|Hr].
    + destruct (running tween) eqn:Hrun; simpl in Hr; [|contradiction].
      destruct Hr as [<-|[]]. exists 0%nat, tween.
      rewrite Z.add_0_r. auto.
    + apply IH in Hr as (i & tw & Hi & Hrun & ->).
      exists (S i), tw. repeat split; try assumption.
      f_equal. lia.
Qed.

Lemma chained_In vec c :
  In c (chained vec) <->
  exists j done,
    vec !! j = Some done /\ completes done = true /\ In c (endTween done).
Proof.
  induction vec as [|tween vec IH]; simpl.
  - split; [intros [] | intros (j & done & Hj & _); discriminate].
  - rewrite in_app_iff, IH. split.
    + intros [Hc|(j & done & Hj & Hd & Hc)].
      * destruct (completes tween) eqn:Hd; [|contradiction].
        exists 0%nat, tween. auto.
      * exists (S j), done. auto.
    + intros ([|j] & done & Hj & Hd & Hc); simpl in Hj.
      * injection Hj as ->. rewrite Hd. auto.
      * right. exists j, done. auto.
Qed.

(** In [STween.h] a record found in the registry right after [Update]
    either stayed (it was active and its completion test failed) or was
    appended from the chain list of a record that completed: no completed
    record and no left-over survives the call. *)
Theorem Update_drops_completed deltaTime s r :
  In r (GetTweens (Update deltaTime s).1) ->
  (exists i tween,
      m_tweenVec s !! i = Some tween /\ running tween = true
      /\ r = advance deltaTime (Z.of_nat i) tween)
  \/ (exists j done c k,
         m_tweenVec s !! j = Some done /\ completes done = true
         /\ In c (endTween done) /\ r = set_tweenID k c).
Proof.
  unfold GetTweens.
  destruct (Update_shape deltaTime s) as (kept & Hperm & -> & _).
  rewrite in_app_iff. intros [Hr|Hr].
  - left. eapply Permutation_in in Hr; [|exact Hperm].
    apply survivors_In in Hr as (i & tween & Hi & Hrun & ->).
    exists i, tween. auto.
  - right. apply list_elem_of_In in Hr. unfold renumber in Hr.
    apply elem_of_lookup_imap in Hr as (k & c & -> & Hk).
    apply list_elem_of_lookup_2, list_elem_of_In, chained_In in Hk
      as (j & done & Hj & Hd & Hc).
    eauto 10.
Qed.

(** C8 (amended). When a record completes during [Update], every record
    of its chain list is appended after the records that stay, unchanged
    except for its identifier ([fromReady] and [timeCounter] are as
    captured), and its identifier is [m_lastTweenIndex] at the moment of
    its insertion, that is, its position in the vector minus one. The
    identifier is not compared with those of the stored records. *)
Theorem Update_appends_chained deltaTime s j done c
  (Hinv : STween_inv s)
  (Hj : m_tweenVec s !! j = Some done)
  (Hdone : completes done = true)
  (Hc : In c (endTween done)) :
  exists kept n,
    kept ≡ₚ survivors deltaTime 0 (m_tweenVec s)
    /\ m_tweenVec (Update deltaTime s).1 =
         kept ++ renumber (Z.of_nat (length kept) - 1)
                   (chained (m_tweenVec s))
    /\ (length kept <= n)%nat
    /\ m_tweenVec (Update deltaTime s).1 !! n =
         Some (set_tweenID (Z.of_nat n - 1) c).
Proof.
  destruct (Update_shape deltaTime s) as (kept & Hperm & Hvec & _).
  assert (Hin : In c (chained (m_tweenVec s)))
    by (apply chained_In; eauto).
  apply list_elem_of_In, list_elem_of_lookup_1 in Hin as [k Hk].
  exists kept, (length kept + k)%nat.
  rewrite Hvec. unfold STween_inv in Hinv.
  replace (m_lastTweenIndex s + Z.of_nat (length kept)
           - Z.of_nat (length (m_tweenVec s)))
    with (Z.of_nat (length kept) - 1) by lia.
  repeat split; [assumption|lia|].
  rewrite lookup_app_r by lia.
  replace (length kept + k - length kept)%nat with k by lia.
  unfold renumber. rewrite list_lookup_imap, Hk. simpl.
  do 2 f_equal. lia.
Qed.
End UpdateShape.

Lemma Update_appends_chained_witness :
  exists kept n,
    kept ≡ₚ survivors F32.one 0 (m_tweenVec Demo.two_with_chain)
    /\ m_tweenVec (Update F32.one Demo.two_with_chain).1 =
         kept ++ renumber (Z.of_nat (length kept) - 1)
                   (chained (m_tweenVec Demo.two_with_chain))
    /\ (length kept <= n)%nat
    /\ m_tweenVec (Update F32.one Demo.two_with_chain).1 !! n =
         Some (set_tweenID (Z.of_nat n - 1)
                 (mkTweenData (-1) true false false nullptr (Demo.f 7)
                    (Demo.f 9) F32.one EasingFunction.Linear F32.zero
                    None None [])).
Proof.
  apply (Update_appends_chained F32.one Demo.two_with_chain 1
           (mkTweenData 1 true false false nullptr F32.zero (Demo.f 10)
              F32.one EasingFunction.Linear F32.one None None
              (GetTweens Demo.chain_source))).
  - reflexivity.
  - reflexivity.
  - vm_compute. reflexivity.
  - left. reflexivity.
Defined.

(** C8 (counterexample). Registry [a] holds a running tween and a tween
    chained to [b]'s record; on the [Update] where the chained-to tween
    completes, the appended record gets the identifier 0, which the
    running tween already has. *)
Lemma chained_id_collides :
  exists w kept new,
    Demo.chain_demo = Some w
    /\ Demo.records w = [kept; new]
    /\ initialCpy new = Demo.f 7
    /\ tweenID new = tweenID kept.
Proof.
  eexists _, _, _. vm_compute. repeat split; reflexivity.
Qed.

(** ** [m_lastTweenIndex] *)

Section LastIndex.
Context {T : Type} `{TweenValue T}.
Variable indeterminate : T.
Implicit Types (s : STween T) (tween : TweenData T) (deltaTime : float).

Lemma at_last_back (f : TweenData T -> TweenData T) s :
  STween_inv s ->
  at_last f s =
    match last (m_tweenVec s) with
    | Some back =>
        Some (mkSTween (m_lastTweenIndex s)
                (removelast (m_tweenVec s) ++ [f back]))
    | None => None
    end.
Proof.
  unfold STween_inv, at_last. destruct s as [idx vec]. simpl. intros ->.
  destruct vec as [|x vec _] using rev_ind; simpl.
  - reflexivity.
  - rewrite last_snoc, removelast_last, length_app. simpl.
    rewrite bool_decide_eq_true_2 by lia.
    replace (Z.to_nat (Z.of_nat (length vec + 1) - 1)) with (length vec)
      by lia.
    rewrite list_lookup_middle by reflexivity.
    rewrite insert_app_r_alt, Nat.sub_diag by lia.
    reflexivity.
Qed.

Lemma AddTween_inv tween s : STween_inv s -> STween_inv (AddTween tween s).
Proof.
  unfold STween_inv, AddTween. simpl. rewrite length_app. simpl. lia.
Qed.

Lemma Update_inv deltaTime s :
  STween_inv s -> STween_inv (Update deltaTime s).1.
Proof.
  unfold STween_inv. intros Hinv.
  destruct (Update_shape deltaTime s) as (kept & _ & _ & ->). lia.
Qed.

(** C10 (amended). [m_lastTweenIndex] is the number of stored records
    minus one after construction and after [ReleaseTweens], and [From],
    [AddTween], [AddTweens], [Update] and the builder methods keep it so.
    Hence a builder method ([To], [Time], [OnFinish], [OnStep], [Chain],
    [Reversed], [Easing], each an [at_last]) assigns to the record at the
    back of the vector and to no other, and is undefined on an empty
    registry. After [From] and [AddTween] the back of the vector is the
    record just appended. *)
Theorem lastTweenIndex_is_back s (Hinv : STween_inv s) :
  STween_inv (@STween_new T)
  /\ STween_inv (ReleaseTweens s)
  /\ (forall (p : addr) (h : heap T),
        match h !! p, From indeterminate (Some p) h s with
        | Some v, Some s' =>
            STween_inv s'
            /\ last (m_tweenVec s') =
                 Some (mkTweenData (m_lastTweenIndex s) true true false
                         (Some p) v indeterminate F32.zero
                         EasingFunction.Linear F32.zero None None [])
        | None, None => True
        | _, _ => False
        end)
  /\ (forall initVal,
        STween_inv (FromValue indeterminate initVal s)
        /\ last (m_tweenVec (FromValue indeterminate initVal s)) =
             Some (mkTweenData (m_lastTweenIndex s) true false false nullptr
                     initVal indeterminate F32.zero EasingFunction.Linear
                     F32.zero None None []))
  /\ (forall tween,
        STween_inv (AddTween tween s)
        /\ last (m_tweenVec (AddTween tween s)) =
             Some (set_tweenID (m_lastTweenIndex s) tween))
  /\ (forall tweens, STween_inv (AddTweens tweens s))
  /\ (forall deltaTime, STween_inv (Update deltaTime s).1)
  /\ (forall f,
        at_last f s =
          match last (m_tweenVec s) with
          | Some back =>
              Some (mkSTween (m_lastTweenIndex s)
                      (removelast (m_tweenVec s) ++ [f back]))
          | None => None
          end)
  /\ (forall f,
        match at_last f s with
        | Some s' => STween_inv s'
        | None => m_tweenVec s = []
        end).
Proof.
  repeat apply conj.
  - reflexivity.
  - reflexivity.
  - intros p h. simpl.
    destruct (h !! p) as [v|] eqn:Hv; [|exact I]. split.
    + unfold STween_inv in *. simpl. rewrite length_app. simpl. lia.
    + simpl. apply last_snoc.
  - intros initVal. split.
    + unfold STween_inv in *. simpl. rewrite length_app. simpl. lia.
    + simpl. apply last_snoc.
  - intros tween. split; [apply AddTween_inv; assumption|].
    simpl. apply last_snoc.
  - intros tweens. rewrite AddTweens_spec. unfold STween_inv in *. simpl.
    rewrite length_app. unfold renumber. rewrite length_imap. lia.
  - intros deltaTime. apply Update_inv. assumption.
  - intros f. apply at_last_back. assumption.
  - intros f. rewrite at_last_back by assumption.
    destruct (last (m_tweenVec s)) as [back|] eqn:Hlast.
    + apply last_Some in Hlast as [pre Hpre].
      unfold STween_inv in *. simpl. rewrite Hpre in *.
      rewrite removelast_last. rewrite !length_app in *. simpl in *. lia.
    + apply last_None. assumption.
Qed.
End LastIndex.

Lemma lastTweenIndex_is_back_witness :
  STween_inv (FromValue Demo.garbage F32.one (@STween_new float))
  /\ To (Demo.f 10) (FromValue Demo.garbage F32.one STween_new) =
       Some (mkSTween 0
               [mkTweenData (-1) true false false nullptr F32.one (Demo.f 10)
                  F32.zero EasingFunction.Linear F32.zero None None []]).
Proof.
  assert (Hinv : STween_inv (FromValue Demo.garbage F32.one (@STween_new float)))
    by reflexivity.
  split; [exact Hinv|].
  pose proof (lastTweenIndex_is_back Demo.garbage _ Hinv)
    as (_ & _ & _ & _ & _ & _ & _ & Hback & _).
  unfold To. rewrite Hback. reflexivity.
Defined.

(** C10 (counterexample). Three records are appended, the first completes
    on the next [Update] and the last one is moved into its place; [To]
    then assigns to the record appended second, although the record
    appended last is still stored. *)
Lemma builder_reaches_older_record :
  exists w newest older,
    Demo.run (Demo.three_appended ++ [CallUpdate F32.one; CallTo (Demo.f 99)])
      = Some w
    /\ Demo.records w = [newest; older]
    /\ initialCpy newest = Demo.f 3 /\ finalValue newest = Demo.garbage
    /\ initialCpy older = Demo.f 2 /\ finalValue older = Demo.f 99.
Proof.
  eexists _, _, _. vm_compute. repeat split; reflexivity.
Qed.

(** ** Reversed tweens *)

Section Reversal.
Context {T : Type} `{TweenValue T}.
Implicit Types (s : STween T) (tween : TweenData T) (deltaTime : float)
  (vec : list (TweenData T)).

Lemma mirrored_refl tween : mirrored tween tween.
Proof. left. reflexivity. Qed.

Lemma Forall2_mirrored_refl vec : Forall2 mirrored vec vec.
Proof. induction vec; constructor; auto using mirrored_refl. Qed.

Lemma Update_body_mirror deltaTime counter tween :
  Update_body deltaTime counter (mirror tween) =
    let o := Update_body deltaTime counter tween in
    mkOutcome (mirror (out_tween o)) (out_events o) (out_delete o) (out_add o).
Proof.
  destruct tween as [id ready byPtr rev p S E d k tc fin step chain].
  unfold Update_body, mirror, tween_value, snap_value, write_events,
    step_events, finish_events. simpl.
  destruct ready; [|reflexivity].
  destruct (F32.geb tc d), rev; reflexivity.
Qed.

Lemma Update_body_mirrored deltaTime counter tween1 tween2 :
  mirrored tween1 tween2 ->
  mirrored (out_tween (Update_body deltaTime counter tween1))
           (out_tween (Update_body deltaTime counter tween2))
  /\ out_events (Update_body deltaTime counter tween1)
     = out_events (Update_body deltaTime counter tween2)
  /\ out_delete (Update_body deltaTime counter tween1)
     = out_delete (Update_body deltaTime counter tween2)
  /\ out_add (Update_body deltaTime counter tween1)
     = out_add (Update_body deltaTime counter tween2).
Proof.
  intros [->| ->].
  - auto using mirrored_refl.
  - rewrite Update_body_mirror. simpl. repeat split. right. reflexivity.
Qed.

Lemma Update_loop_mirrored deltaTime vec1 vec2 :
  Forall2 mirrored vec1 vec2 ->
  forall counter,
    Forall2 mirrored (pass_vec (Update_loop deltaTime counter vec1))
                     (pass_vec (Update_loop deltaTime counter vec2))
    /\ pass_events (Update_loop deltaTime counter vec1)
       = pass_events (Update_loop deltaTime counter vec2)
    /\ tweensToAdd (Update_loop deltaTime counter vec1)
       = tweensToAdd (Update_loop deltaTime counter vec2)
    /\ tweensToDelete (Update_loop deltaTime counter vec1)
       = tweensToDelete (Update_loop deltaTime counter vec2).
Proof.
  induction 1 as [|tween1 tween2 vec1 vec2 Hm _ IH]; intros counter; simpl.
  - repeat split. constructor.
  - destruct (Update_body_mirrored deltaTime counter _ _ Hm)
      as (Ht & -> & -> & ->).
    destruct (IH (counter + 1)) as (Hv & -> & -> & ->).
    repeat split. constructor; assumption.
Qed.

Lemma removelast_mirrored vec1 vec2 :
  Forall2 mirrored vec1 vec2 ->
  Forall2 mirrored (removelast vec1) (removelast vec2).
Proof.
  induction 1 as [|tween1 tween2 vec1 vec2 Hm Hv IH]; simpl.
  - constructor.
  - destruct Hv; [constructor|]. constructor; assumption.
Qed.

Lemma swap_remove_mirrored i s1 s2 :
  STween_mirrored s1 s2 ->
  STween_mirrored (swap_remove i s1) (swap_remove i s2).
Proof.
  intros [Hidx Hvec]. unfold swap_remove.
  destruct (Forall2_last _ _ _ Hvec) as [back1 back2 Hback|].
  - split; simpl; [congruence|].
    apply removelast_mirrored, Forall2_insert; assumption.
  - split; assumption.
Qed.

Lemma delete_loop_mirrored toDelete s1 s2 :
  STween_mirrored s1 s2 ->
  STween_mirrored (delete_loop toDelete s1) (delete_loop toDelete s2).
Proof.
  unfold delete_loop. generalize (rev toDelete) as l. intros l.
  revert s1 s2. induction l as [|i l IH]; intros s1 s2 Hs; simpl.
  - assumption.
  - apply IH, swap_remove_mirrored, Hs.
Qed.

Lemma AddTweens_mirrored tweens s1 s2 :
  STween_mirrored s1 s2 ->
  STween_mirrored (AddTweens tweens s1) (AddTweens tweens s2).
Proof.
  intros [Hidx Hvec]. rewrite !AddTweens_spec. split; simpl.
  - congruence.
  - rewrite Hidx. apply Forall2_app; [assumption|].
    apply Forall2_mirrored_refl.
Qed.

Lemma Update_mirrored deltaTime s1 s2 :
  STween_mirrored s1 s2 ->
  STween_mirrored (Update deltaTime s1).1 (Update deltaTime s2).1
  /\ (Update deltaTime s1).2 = (Update deltaTime s2).2.
Proof.
  intros [Hidx Hvec]. unfold Update. simpl.
  destruct (Update_loop_mirrored deltaTime _ _ Hvec 0) as (Hv & -> & -> & ->).
  split; [|reflexivity].
  apply AddTweens_mirrored, delete_loop_mirrored. split; assumption.
Qed.

Lemma Updates_mirrored dts s1 s2 :
  STween_mirrored s1 s2 ->
  (Updates dts s1).2 = (Updates dts s2).2.
Proof.
  revert s1 s2. induction dts as [|deltaTime dts IH]; intros s1 s2 Hs.
  - reflexivity.
  - rewrite !Updates_cons.
    destruct (Update_mirrored deltaTime _ _ Hs) as [Hs' ->].
    rewrite (IH _ _ Hs'). reflexivity.
Qed.

(** C5. A record with [initialCpy = S], [finalValue = E] and
    [reversed = true] and a record with [initialCpy = E],
    [finalValue = S] and [reversed = false], alike in everything else
    and stored at the same place of otherwise equal registries, cause the
    same stores and callback invocations, with the same values in the
    same order, under every sequence of [Update] calls. *)
Theorem reversed_swaps_ends (S E : T) id ready byPtr p d k tc fin step chain
  idx pre post (dts : list float) :
  (Updates dts
     (mkSTween idx
        (pre ++ mkTweenData id ready byPtr true p S E d k tc fin step chain
             :: post))).2
  = (Updates dts
       (mkSTween idx
          (pre ++ mkTweenData id ready byPtr false p E S d k tc fin step chain
               :: post))).2.
Proof.
  apply Updates_mirrored. split; [reflexivity|]. simpl.
  apply Forall2_app; [apply Forall2_mirrored_refl|].
  constructor; [|apply Forall2_mirrored_refl].
  right. reflexivity.
Qed.
End Reversal.

(** ** Chain lists are copies *)

Section ChainSnapshot.
Context {T : Type} `{TweenValue T}.
Variable indeterminate : T.
Variable run : Callbacks T.




End ChainSnapshot.


(** ** By-value tweens never store through a pointer *)

Section ByValue.
Context {T : Type} `{TweenValue T}.
Variable indeterminate : T.
Variable run : Callbacks T.

(** The callbacks leave the storage as it is. *)
Hypothesis run_inert : forall cb v (h : heap T), run cb v h = Some h.
Implicit Types (s : STween T) (tween : TweenData T) (deltaTime : float)
  (vec : list (TweenData T)).

Lemma Update_body_no_write deltaTime counter tween :
  byPointer tween = false ->
  Forall (fun e => is_write e = false)
    (out_events (Update_body deltaTime counter tween)).
Proof.
  intros Hbv.
  destruct (running_completes_leftover tween)
    as [(Hr & _ & _)|[(_ & Hc & _)|(_ & _ & Hf)]].
  - rewrite Update_body_running by assumption.
    unfold write_events, step_events. rewrite Hbv. simpl.
    destruct (stepCallback tween); repeat constructor.
  - rewrite Update_body_completes by assumption.
    unfold write_events, step_events, finish_events. rewrite Hbv. simpl.
    destruct (stepCallback tween), (finishCallback tween);
      repeat constructor.
  - rewrite Update_body_leftover by assumption. constructor.
Qed.

Lemma Update_loop_no_write deltaTime counter vec :
  Forall by_value_only vec ->
  Forall (fun e => is_write e = false)
    (pass_events (Update_loop deltaTime counter vec))
  /\ chained vec = [].
Proof.
  intros Hvec. revert counter.
  induction Hvec as [|tween vec [Hbv Hch] _ IH]; intros counter; simpl.
  - split; [constructor | reflexivity].
  - destruct (IH (counter + 1)) as [IHev ->]. split.
    + apply Forall_app. split; [|assumption].
      apply Update_body_no_write. assumption.
    + rewrite Hch. destruct (completes tween); reflexivity.
Qed.

Lemma Update_by_value deltaTime s :
  Forall by_value_only (m_tweenVec s) ->
  Forall by_value_only (m_tweenVec (Update deltaTime s).1)
  /\ Forall (fun e => is_write e = false) (Update deltaTime s).2.
Proof.
  intros Hvec.
  destruct (Update_loop_no_write deltaTime 0 _ Hvec) as [Hev Hch].
  split; [|exact Hev].
  destruct (Update_shape deltaTime s) as (kept & Hperm & -> & _).
  rewrite Hch. unfold renumber. simpl. rewrite app_nil_r.
  apply Forall_forall. intros r Hr.
  apply list_elem_of_In in Hr.
  eapply Permutation_in in Hr; [|exact Hperm].
  apply survivors_In in Hr as (i & tween & Hi & _ & ->).
  rewrite Forall_forall in Hvec.
  apply (Hvec tween). eapply list_elem_of_lookup_2. eassumption.
Qed.

Lemma exec_events_no_write (h : heap T) (es : list (Event T)) :
  Forall (fun e => is_write e = false) es ->
  exec_events run h es = Some h.
Proof.
  induction 1 as [|e es He _ IH]; simpl; [reflexivity|].
  destruct e; simpl in *; try discriminate; rewrite run_inert; assumption.
Qed.

(** Any number of [Update] calls on a registry of by-value records
    without chains: every call is defined, the storage is untouched and
    no store is ever attempted. *)
Lemma Updates_by_value (this : nat) (dts : list float) :
  forall (w : World T) s,
    registries w !! this = Some s ->
    Forall by_value_only (m_tweenVec s) ->
    exists w' evs,
      calls indeterminate run this (map CallUpdate dts) w = Some w'
      /\ storage w' = storage w
      /\ log w' = log w ++ evs
      /\ Forall (fun e => is_write e = false) evs.
Proof.
  induction dts as [|deltaTime dts IH]; intros w s Hs Hvec; simpl.
  - exists w, []. rewrite app_nil_r. repeat split. constructor.
  - unfold call. rewrite Hs.
    destruct (Update_by_value deltaTime s Hvec) as [Hvec' Hev].
    destruct (Update deltaTime s) as [s' ev]. simpl in *.
    rewrite exec_events_no_write by assumption. simpl.
    edestruct (IH (mkWorld (<[this:=s']> (registries w)) (storage w)
                     (log w ++ ev)) s')
      as (w' & evs & -> & Hst & Hlog & Hevs);
      [apply lookup_insert_eq | assumption |].
    exists w', (ev ++ evs). simpl in *.
    rewrite Hlog, <- app_assoc. repeat split; try assumption.
    apply Forall_app. split; assumption.
Qed.

Lemma calls_app (this : nat) (cs1 cs2 : list (Call T)) (w : World T) :
  calls indeterminate run this (cs1 ++ cs2) w =
    match calls indeterminate run this cs1 w with
    | Some w1 => calls indeterminate run this cs2 w1
    | None => None
    end.
Proof.
  revert w. induction cs1 as [|c cs1 IH]; intros w; simpl.
  - reflexivity.
  - destruct (call indeterminate run this c w); [apply IH | reflexivity].
Qed.
End ByValue.

(** C7 (counterexample). After [From(0.0f).To(1).Time(1).OnStep(cb)] the
    call [Update(1)] invokes [cb] once, with the value 0: the value is
    computed from the time accumulated before the call. *)
Lemma by_value_first_Update :
  exists w,
    Demo.run (Demo.by_value ++ [CallUpdate F32.one]) = Some w
    /\ log w = [EvStep Demo.cbStep F32.zero]
    /\ ~ In (EvStep Demo.cbStep F32.one) (log w).
Proof.
  eexists. vm_compute. repeat split.
  intros [Hin|[]]. discriminate.
Qed.

(** C7 (amended). After [From(0.0f).To(1).Time(1).OnStep(cb)] the first
    [Update(1)] invokes [cb(0)] and keeps the record; the second
    [Update(1)] invokes [cb(1)] and removes the record; and whatever the
    sequence of [Update] calls, every call is defined, no store through a
    pointer is attempted and the caller's storage is unchanged. *)
Theorem by_value_program :
  (exists w,
      Demo.run (Demo.by_value ++ [CallUpdate F32.one]) = Some w
      /\ log w = [EvStep Demo.cbStep F32.zero]
      /\ map fromReady (Demo.records w) = [true])
  /\ (exists w,
         Demo.run (Demo.by_value ++ [CallUpdate F32.one; CallUpdate F32.one])
           = Some w
         /\ log w = [EvStep Demo.cbStep F32.zero; EvStep Demo.cbStep F32.one]
         /\ Demo.records w = [])
  /\ (forall dts : list float,
         exists w,
           Demo.run (Demo.by_value ++ map CallUpdate dts) = Some w
           /\ storage w = storage (Demo.world F32.zero)
           /\ Forall (fun e => is_write e = false) (log w)).
Proof.
  split; [|split].
  - eexists. vm_compute. repeat split.
  - eexists. vm_compute. repeat split.
  - intros dts. unfold Demo.run. rewrite calls_app.
    destruct (calls Demo.garbage Demo.observers Demo.a Demo.by_value
                (Demo.world F32.zero))
      as [w0|] eqn:Hbuild; [|vm_compute in Hbuild; discriminate].
    vm_compute in Hbuild. injection Hbuild as <-.
    edestruct (Updates_by_value Demo.garbage Demo.observers
                 (fun _ _ _ => eq_refl) Demo.a dts)
      as (w & evs & -> & Hst & Hlog & Hev).
    + vm_compute. reflexivity.
    + simpl. repeat constructor.
    + exists w. split; [reflexivity|]. split.
      * rewrite Hst. vm_compute. reflexivity.
      * rewrite Hlog. simpl. assumption.
Qed.

(** ** Comparison of binary32 numbers *)

Section Comparison.
Lemma SFcompare_Eq_sym (a b : float) :
  SFcompare a b = Some Eq -> SFcompare b a = Some Eq.
Proof.
  destruct a as [sa|sa| |sa ma ea], b as [sb|sb| |sb mb eb]; simpl;
    try discriminate; try reflexivity;
    try (destruct sa; discriminate); try (destruct sb; discriminate).
  - destruct sa, sb; try discriminate; reflexivity.
  - destruct sa, sb; try discriminate;
      destruct (ea ?= eb) eqn:He; try discriminate;
      apply Z.compare_eq in He; subst eb; rewrite Z.compare_refl;
      intros [= Hm];
      [apply (f_equal CompOpp) in Hm; rewrite CompOpp_involutive in Hm;
       simpl in Hm|];
      apply Pos.compare_eq in Hm; subst mb;
      fold (Pos.compare ma ma); rewrite Pos.compare_refl; reflexivity.
Qed.

Lemma F32_eqb_geb (a b : float) : F32.eqb a b = true -> F32.geb a b = true.
Proof.
  unfold F32.eqb, F32.geb, F32.leb, SFeqb, SFleb.
  destruct (SFcompare a b) as [[]|] eqn:Hab; try discriminate.
  rewrite (SFcompare_Eq_sym _ _ Hab). reflexivity.
Qed.
End Comparison.

(** C3 (the code at the failing input). A by-value tween from 0 to 10 over
    one second is advanced by 3 seconds and updated again: on that call
    completion is detected, [onStep] is invoked once, with the
    extrapolated value 30, and the boundary value 10 is never passed to
    it. With [x] as target the same call stores 30, invokes [onStep(30)]
    and then stores 10: only the store is snapped. *)
Theorem snap_is_not_passed_to_onStep :
  (exists w,
      Demo.run (Demo.overshoot ++ [CallUpdate F32.one]) = Some w
      /\ log w = [EvStep Demo.cbStep F32.zero; EvStep Demo.cbStep (Demo.f 30)]
      /\ Demo.records w = [])
  /\ (exists w,
         Demo.run (Demo.overshoot_by_pointer ++ [CallUpdate F32.one]) = Some w
         /\ log w = [EvWrite (Some Demo.x) F32.zero;
                     EvStep Demo.cbStep F32.zero;
                     EvWrite (Some Demo.x) (Demo.f 30);
                     EvStep Demo.cbStep (Demo.f 30);
                     EvWrite (Some Demo.x) (Demo.f 10)]
         /\ storage w !! Demo.x = Some (Demo.f 10)
         /\ Demo.records w = []).
Proof.
  split; eexists; vm_compute; repeat split.
Qed.

(** C4 (the earlier revision at the failing input). For
    [From(&x).To(10).Time(1)] the second [Update(1)] detects completion
    (it stores the boundary value and clears [fromReady]), but the copy
    handed to [std::find] carries the time counter from before the
    increment, so no stored record compares equal to it: the completed
    record is still returned by [GetTweens] after that call, and after
    every later call. *)
Theorem Part000_Update_keeps_completed :
  match From Demo.garbage (Some Demo.x) {[ Demo.x := F32.zero ]} STween_new with
  | Some s =>
      match To (Demo.f 10) s with
      | Some s => Time F32.one s
      | None => None
      end
  | None => None
  end = Some Demo.plain_registry
  /\ Part000.Update F32.one Demo.plain_registry =
       (mkSTween 0
          [mkTweenData (-1) true true false (Some Demo.x) F32.zero (Demo.f 10)
             F32.one EasingFunction.Linear F32.one None None []],
        [EvWrite (Some Demo.x) F32.zero])
  /\ completes
       (mkTweenData (-1) true true false (Some Demo.x) F32.zero (Demo.f 10)
          F32.one EasingFunction.Linear F32.one None None []) = true
  /\ Part000.Updates [F32.one; F32.one] Demo.plain_registry =
       (mkSTween 0
          [mkTweenData (-1) false true false (Some Demo.x) F32.zero (Demo.f 10)
             F32.one EasingFunction.Linear F32.two None None []],
        [EvWrite (Some Demo.x) F32.zero;
         EvWrite (Some Demo.x) (Demo.f 10);
         EvWrite (Some Demo.x) (Demo.f 10)])
  /\ GetTweens
       (Part000.Updates [F32.one; F32.one; F32.one] Demo.plain_registry).1
     = [mkTweenData (-1) false true false (Some Demo.x) F32.zero (Demo.f 10)
          F32.one EasingFunction.Linear F32.two None None []]
  /\ GetTweens (Updates [F32.one; F32.one] Demo.plain_registry).1 = [].
Proof.
  repeat split; vm_compute; reflexivity.
Qed.

(** * Further properties of the registry *)

(** ** What one [Update] keeps, in which order, and what it clears *)

Section UpdateKeeps.
Context {T : Type} `{TweenValue T}.
Implicit Types (s : STween T) (tween : TweenData T) (deltaTime : float)
  (vec : list (TweenData T)).

Lemma survivors_lookup deltaTime counter vec i tween :
  vec !! i = Some tween -> running tween = true ->
  In (advance deltaTime (counter + Z.of_nat i) tween)
     (survivors deltaTime counter vec).
Proof.
  revert counter i. induction vec as [|x vec IH]; intros counter i Hi Hrun.
  - discriminate.
  - simpl. apply in_app_iff. destruct i as [|i]; simpl in Hi.
    + injection Hi as ->. rewrite Hrun, Z.add_0_r. left. left. reflexivity.
    + right. replace (counter + Z.of_nat (S i)) with (counter + 1 + Z.of_nat i)
        by lia.
      apply IH; assumption.
Qed.

(** A record that is active and whose completion test fails is still
    stored after [Update], with the time step added to its counter and its
    identifier set to the index it had before the call. *)
Theorem Update_keeps_running deltaTime s i tween
  (Hi : m_tweenVec s !! i = Some tween)
  (Hrun : running tween = true) :
  In (advance deltaTime (Z.of_nat i) tween) (GetTweens (Update deltaTime s).1).
Proof.
  unfold GetTweens.
  destruct (Update_shape deltaTime s) as (kept & Hperm & -> & _).
  apply in_app_iff. left.
  eapply Permutation_in; [symmetry; exact Hperm|].
  apply (survivors_lookup deltaTime 0 _ i tween); assumption.
Qed.

Lemma Update_loop_all_running deltaTime vec :
  Forall (fun tween => running tween = true) vec ->
  forall counter,
    Update_loop deltaTime counter vec =
      mkPass
        (imap (fun i tween => advance deltaTime (counter + Z.of_nat i) tween) vec)
        (flat_map events_of vec) [] [].
Proof.
  induction 1 as [|tween vec Hrun _ IH]; intros counter; simpl.
  - reflexivity.
  - rewrite IH, Update_body_running by assumption. simpl.
    unfold events_of at 2.
    destruct (running_completes_leftover tween)
      as [(_ & -> & _)|[(Hr & _)|(Hr & _)]]; try congruence.
    rewrite app_nil_r, Z.add_0_r. f_equal. f_equal.
    apply imap_ext. intros i x _. simpl. f_equal. lia.
Qed.

(** When no record completes and none is inactive, [Update] keeps the
    records in their order, adds the time step to every counter, sets
    every identifier to the record's index and leaves [m_lastTweenIndex]
    alone; the events are those of the records, in vector order. *)
Theorem Update_nothing_completes deltaTime s
  (Hall : Forall (fun tween => running tween = true) (m_tweenVec s)) :
  Update deltaTime s =
    (mkSTween (m_lastTweenIndex s)
       (imap (fun i tween => advance deltaTime (Z.of_nat i) tween)
          (m_tweenVec s)),
     flat_map events_of (m_tweenVec s)).
Proof.
  unfold Update. rewrite (Update_loop_all_running deltaTime _ Hall 0).
  cbn [pass_vec pass_events tweensToAdd tweensToDelete].
  unfold delete_loop. simpl. destruct s as [idx vec]. reflexivity.
Qed.

Lemma Update_loop_inactive deltaTime vec :
  Forall (fun tween => fromReady tween = false) vec ->
  forall counter,
    pass_events (Update_loop deltaTime counter vec) = []
    /\ survivors deltaTime counter vec = []
    /\ chained vec = [].
Proof.
  induction 1 as [|tween vec Hoff _ IH]; intros counter; simpl.
  - repeat split.
  - destruct (IH (counter + 1)) as (-> & -> & ->).
    rewrite Update_body_leftover by assumption.
    unfold running, completes. rewrite Hoff. repeat split.
Qed.

(** [Update] of [STween.h] removes every inactive record it finds: on a
    registry of inactive records it stores nothing, invokes no callback
    and leaves the registry empty, [m_lastTweenIndex] lowered by the number
    of records. *)
Theorem Update_clears_inactive deltaTime s
  (Hoff : Forall (fun tween => fromReady tween = false) (m_tweenVec s)) :
  Update deltaTime s =
    (mkSTween (m_lastTweenIndex s - Z.of_nat (length (m_tweenVec s))) [], []).
Proof.
  destruct (Update_loop_inactive deltaTime _ Hoff 0) as (Hev & Hsurv & Hch).
  destruct (Update_shape deltaTime s) as (kept & Hperm & Hvec & Hidx).
  rewrite Hsurv in Hperm. apply Permutation_nil_r in Hperm. subst kept.
  rewrite Hch in Hvec. unfold renumber in Hvec. cbn [imap app] in Hvec.
  assert (Hev' : (Update deltaTime s).2 = []) by exact Hev.
  revert Hvec Hidx Hev'.
  destruct (Update deltaTime s) as [[idx' vec'] ev]. simpl.
  intros -> -> ->. simpl. f_equal. f_equal. lia.
Qed.
End UpdateKeeps.

Lemma Update_drops_completed_witness :
  (exists i tween,
      m_tweenVec Demo.two_with_chain !! i = Some tween
      /\ running tween = true
      /\ set_tweenID 0
           (mkTweenData (-1) true false false nullptr (Demo.f 7) (Demo.f 9)
              F32.one EasingFunction.Linear F32.zero None None [])
         = advance F32.one (Z.of_nat i) tween)
  \/ (exists j done c k,
         m_tweenVec Demo.two_with_chain !! j = Some done
         /\ completes done = true
         /\ In c (endTween done)
         /\ set_tweenID 0
              (mkTweenData (-1) true false false nullptr (Demo.f 7) (Demo.f 9)
                 F32.one EasingFunction.Linear F32.zero None None [])
            = set_tweenID k c).
Proof.
  apply (Update_drops_completed F32.one Demo.two_with_chain).
  vm_compute. right. left. reflexivity.
Defined.

Lemma Update_keeps_running_witness :
  In (advance F32.one 0
        (mkTweenData 0 true false false nullptr F32.zero (Demo.f 10)
           (Demo.f 5) EasingFunction.Linear F32.one None None []))
     (GetTweens (Update F32.one Demo.two_with_chain).1).
Proof.
  apply (Update_keeps_running F32.one Demo.two_with_chain 0).
  - reflexivity.
  - vm_compute. reflexivity.
Defined.

Lemma Update_nothing_completes_witness :
  Update F32.one Demo.two_running =
    (mkSTween 1
       (imap (fun i tween => advance F32.one (Z.of_nat i) tween)
          (m_tweenVec Demo.two_running)),
     flat_map events_of (m_tweenVec Demo.two_running)).
Proof.
  apply (Update_nothing_completes F32.one Demo.two_running).
  repeat constructor.
Defined.

Lemma Update_clears_inactive_witness :
  Update F32.one Demo.left_overs = (mkSTween (-1) [], []).
Proof.
  apply (Update_clears_inactive F32.one Demo.left_overs).
  repeat constructor.
Defined.

(** ** The stores and callback invocations of one [Update] *)

Section UpdateEvents.
Context {T : Type} `{TweenValue T}.
Implicit Types (s : STween T) (tween : TweenData T) (deltaTime : float)
  (vec : list (TweenData T)) (h : heap T).

Lemma out_events_of deltaTime counter tween :
  out_events (Update_body deltaTime counter tween) =
    if fromReady tween then events_of tween else [].
Proof.
  unfold events_of.
  destruct (running_completes_leftover tween)
    as [(Hr & Hc & Hf)|[(Hr & Hc & Hf)|(Hr & Hc & Hf)]]; rewrite Hf, ?Hc.
  - rewrite Update_body_running, app_nil_r by assumption. reflexivity.
  - rewrite Update_body_completes by assumption. reflexivity.
  - rewrite Update_body_leftover by assumption. reflexivity.
Qed.

Lemma Update_events deltaTime s :
  (Update deltaTime s).2 =
    flat_map (fun tween => if fromReady tween then events_of tween else [])
      (m_tweenVec s).
Proof.
  unfold Update. cbn [snd]. generalize 0 as counter.
  induction (m_tweenVec s) as [|tween vec IH]; intros counter; simpl.
  - reflexivity.
  - rewrite out_events_of, IH. reflexivity.
Qed.

Lemma events_of_write tween p v :
  In (EvWrite p v) (events_of tween) ->
  byPointer tween = true /\ initialValue tween = p
  /\ (v = tween_value tween \/ (completes tween = true /\ v = snap_value tween)).
Proof.
  unfold events_of, write_events, step_events, finish_events.
  destruct (byPointer tween), (stepCallback tween), (finishCallback tween),
    (completes tween); simpl; intros Hin;
    repeat (destruct Hin as [Hin|Hin]; [try discriminate|]);
    try contradiction; injection Hin as <- <-; auto.
Qed.

(** [Update] stores only through the [initialValue] of an active
    by-pointer record of the registry, and what it stores there is that
    record's eased value or, when the record completes, its boundary
    value. *)
Theorem Update_stores_only_to_targets deltaTime s p v
  (Hin : In (EvWrite p v) (Update deltaTime s).2) :
  exists tween,
    In tween (m_tweenVec s)
    /\ fromReady tween = true /\ byPointer tween = true
    /\ initialValue tween = p
    /\ (v = tween_value tween
        \/ (completes tween = true /\ v = snap_value tween)).
Proof.
  rewrite Update_events in Hin. apply in_flat_map in Hin as (tween & Hin & Hev).
  exists tween. destruct (fromReady tween) eqn:Hready; [|contradiction].
  apply events_of_write in Hev as (Hbp & Hp & Hv). auto.
Qed.

Lemma exec_events_app (run : Callbacks T) h (es1 es2 : list (Event T)) :
  exec_events run h (es1 ++ es2) =
    match exec_events run h es1 with
    | Some h1 => exec_events run h1 es2
    | None => None
    end.
Proof.
  revert h. induction es1 as [|e es1 IH]; intros h; simpl.
  - reflexivity.
  - destruct (exec_event run h e); [apply IH | reflexivity].
Qed.

Lemma valid_target_dom h1 h2 tween :
  dom h1 = dom h2 -> valid_target h1 tween = valid_target h2 tween.
Proof.
  intros Hdom. unfold valid_target.
  destruct (initialValue tween) as [a|]; [|reflexivity].
  assert (Ha : is_Some (h1 !! a) <-> is_Some (h2 !! a))
    by (rewrite <- !elem_of_dom, Hdom; reflexivity).
  destruct (h1 !! a), (h2 !! a); try reflexivity; exfalso.
  - destruct Ha as [Ha _]. destruct Ha; [eauto | discriminate].
  - destruct Ha as [_ Ha]. destruct Ha; [eauto | discriminate].
Qed.

(** Events whose stores all go to storage that exists are defined when
    the callbacks are, and keep the storage allocated as it is. *)
Lemma exec_events_allocated (run : Callbacks T) (es : list (Event T)) :
  (forall cb v h, exists h', run cb v h = Some h' /\ dom h' = dom h) ->
  forall h,
    Forall (fun e => match e with
                     | EvWrite p _ => exists a, p = Some a /\ a ∈ dom h
                     | _ => True
                     end) es ->
    exists h', exec_events run h es = Some h' /\ dom h' = dom h.
Proof.
  intros Hrun. induction es as [|e es IH]; intros h Hall.
  - exists h. split; reflexivity.
  - apply Forall_cons in Hall as [He Hall]. simpl.
    assert (Hstep : exists h1, exec_event run h e = Some h1 /\ dom h1 = dom h).
    { destruct e as [p v|cb v|cb]; simpl; [|apply Hrun..].
      destruct He as (a & -> & Ha). apply elem_of_dom in Ha as [w Hw].
      rewrite Hw. eexists. split; [reflexivity|].
      rewrite dom_insert_L. apply subseteq_union_1_L, singleton_subseteq_l.
      eapply elem_of_dom_2. eassumption. }
    destruct Hstep as (h1 & -> & Hdom1).
    destruct (IH h1) as (h' & -> & Hdom').
    + rewrite Hdom1. exact Hall.
    + exists h'. split; [reflexivity | congruence].
Qed.

Lemma block_valid (run : Callbacks T) tween h :
  valid_target h tween = true ->
  Forall (fun e => match e with
                   | EvWrite p _ => exists a, p = Some a /\ a ∈ dom h
                   | _ => True
                   end) (block tween).
Proof.
  intros Hvalid. apply Forall_forall. intros e He.
  destruct e as [p v|cb v|cb]; [|exact I..].
  apply list_elem_of_In in He. unfold block in He.
  destruct (fromReady tween) eqn:Hready; [|contradiction].
  apply events_of_write in He as (Hbp & Hp & _).
  unfold valid_target in Hvalid. rewrite Hready, Hbp, Hp in Hvalid.
  simpl in Hvalid. destruct p as [a|]; [|discriminate].
  exists a. split; [reflexivity|]. apply elem_of_dom.
  destruct (h !! a); [eauto | discriminate].
Qed.

Lemma block_invalid (run : Callbacks T) tween h (rest : list (Event T)) :
  valid_target h tween = false ->
  exec_events run h (block tween ++ rest) = None.
Proof.
  unfold valid_target, block, events_of, write_events.
  destruct (fromReady tween), (byPointer tween); simpl; try discriminate.
  destruct (initialValue tween) as [a|]; [|reflexivity].
  simpl. destruct (h !! a); [discriminate | reflexivity].
Qed.

(** Provided the callbacks are defined and neither create nor release
    storage, the stores of [Update] are all defined exactly when the
    [initialValue] of every active by-pointer record names existing
    storage: a null pointer or a pointer to storage that does not exist,
    in a record handed to [AddTween] for instance, makes the call
    undefined, while inactive and by-value records are never
    dereferenced. *)
Theorem Update_defined_iff (run : Callbacks T) deltaTime s h
  (Hrun : forall cb v h, exists h', run cb v h = Some h' /\ dom h' = dom h) :
  (exists h', exec_events run h (Update deltaTime s).2 = Some h')
  <-> Forall (fun tween => valid_target h tween = true) (m_tweenVec s).
Proof.
  rewrite Update_events. fold (@block T _).
  change (flat_map (fun tween => if fromReady tween then events_of tween else []))
    with (flat_map (@block T _)).
  revert h. induction (m_tweenVec s) as [|tween vec IH]; intros h; simpl.
  - split; [constructor | eauto].
  - rewrite Forall_cons.
    destruct (valid_target h tween) eqn:Hvalid.
    + destruct (exec_events_allocated run (block tween) Hrun h
                  (block_valid run tween h Hvalid)) as (h1 & Hh1 & Hdom).
      rewrite exec_events_app, Hh1, IH.
      assert (Hsame : forall t, valid_target h1 t = valid_target h t)
        by (intros t; apply valid_target_dom; exact Hdom).
      split.
      * intros Hall. split; [reflexivity|].
        eapply Forall_impl; [exact Hall|].
        intros t Ht. simpl in *. rewrite <- Hsame. exact Ht.
      * intros [_ Hall].
        eapply Forall_impl; [exact Hall|].
        intros t Ht. simpl in *. rewrite Hsame. exact Ht.
    + rewrite block_invalid by assumption. split.
      * intros [h' Hh']. discriminate.
      * intros [Hfalse _]. discriminate.
Qed.


End UpdateEvents.

Lemma Update_stores_only_to_targets_witness :
  exists tween,
    In tween [Demo.due]
    /\ fromReady tween = true /\ byPointer tween = true
    /\ initialValue tween = Some Demo.x
    /\ (Demo.f 10 = tween_value tween
        \/ (completes tween = true /\ Demo.f 10 = snap_value tween)).
Proof.
  apply (Update_stores_only_to_targets F32.one (mkSTween 0 [Demo.due])).
  vm_compute. left. reflexivity.
Defined.

(** ** Builder calls *)

Section Builder.
Context {T : Type} `{TweenValue T}.
Implicit Types (s : STween T) (tween : TweenData T).

Lemma at_last_fuse (f g : TweenData T -> TweenData T) s :
  match at_last f s with
  | Some s' => at_last g s'
  | None => None
  end = at_last (fun tween => g (f tween)) s.
Proof.
  unfold at_last.
  destruct (bool_decide (0 <= m_lastTweenIndex s)) eqn:Hidx; [|reflexivity].
  destruct (m_tweenVec s !! Z.to_nat (m_lastTweenIndex s)) as [tween|] eqn:Ht;
    [|reflexivity].
  simpl. rewrite Hidx.
  rewrite list_lookup_insert_eq by (eapply lookup_lt_Some; eassumption).
  rewrite list_insert_insert_eq. reflexivity.
Qed.

Lemma at_last_ext (f g : TweenData T -> TweenData T) s :
  (forall tween, f tween = g tween) -> at_last f s = at_last g s.
Proof.
  intros Hfg. unfold at_last.
  destruct (bool_decide _); [|reflexivity].
  destruct (_ !! _); [rewrite Hfg|]; reflexivity.
Qed.

Lemma build_assignment (b : @Builder T) s :
  build b s = at_last (assignment b) s.
Proof. destruct b; reflexivity. Qed.

(** Every builder method ([To], [Time], [OnFinish], [OnStep], [Chain],
    [Reversed], [Easing]) is one assignment to the record at
    [m_lastTweenIndex]: it is undefined exactly when no record is stored
    there; otherwise it changes that record by its field assignment and
    changes neither [m_lastTweenIndex] nor the number of records nor any
    other record. Two builder calls in a row that set the same field
    amount to the second alone, and two that set different fields give the
    same result in either order (being undefined together or not at
    all). *)
Theorem builder_calls_compose (b1 b2 : @Builder T) s :
  (build b1 s = None <-> current s = None)
  /\ match build b1 s with
     | Some s' =>
         m_lastTweenIndex s' = m_lastTweenIndex s
         /\ length (m_tweenVec s') = length (m_tweenVec s)
         /\ take (Z.to_nat (m_lastTweenIndex s)) (m_tweenVec s')
            = take (Z.to_nat (m_lastTweenIndex s)) (m_tweenVec s)
         /\ drop (S (Z.to_nat (m_lastTweenIndex s))) (m_tweenVec s')
            = drop (S (Z.to_nat (m_lastTweenIndex s))) (m_tweenVec s)
         /\ current s' = option_map (assignment b1) (current s)
     | None => True
     end
  /\ match build b1 s with Some s' => build b2 s' | None => None end
     = if same_field b1 b2 then build b2 s
       else match build b2 s with Some s' => build b1 s' | None => None end.
Proof.
  split; [|split].
  - rewrite build_assignment. unfold at_last, current.
    destruct (bool_decide (0 <= m_lastTweenIndex s)); [|tauto].
    destruct (m_tweenVec s !! Z.to_nat (m_lastTweenIndex s));
      split; intros; (discriminate || reflexivity).
  - rewrite build_assignment. unfold at_last, current.
    destruct (bool_decide (0 <= m_lastTweenIndex s)) eqn:Hidx; [|exact I].
    destruct (m_tweenVec s !! Z.to_nat (m_lastTweenIndex s)) as [tween|] eqn:Ht;
      [|exact I].
    simpl. rewrite Hidx.
    split; [reflexivity|]. split; [apply length_insert|].
    split; [apply take_insert_ge; lia|].
    split; [apply drop_insert_lt; lia|].
    apply list_lookup_insert_eq. eapply lookup_lt_Some. eassumption.
  - rewrite !build_assignment.
    assert (Hleft : match at_last (assignment b1) s with
                    | Some s' => build b2 s'
                    | None => None
                    end = at_last (fun t => assignment b2 (assignment b1 t)) s).
    { rewrite <- (at_last_fuse (assignment b1) (assignment b2) s).
      destruct (at_last (assignment b1) s); [apply build_assignment|reflexivity]. }
    assert (Hright : match at_last (assignment b2) s with
                     | Some s' => build b1 s'
                     | None => None
                     end = at_last (fun t => assignment b1 (assignment b2 t)) s).
    { rewrite <- (at_last_fuse (assignment b2) (assignment b1) s).
      destruct (at_last (assignment b2) s); [apply build_assignment|reflexivity]. }
    rewrite Hleft.
    destruct (same_field b1 b2) eqn:Hsame.
    + apply at_last_ext. intros t. destruct b1, b2; try discriminate; reflexivity.
    + rewrite Hright. apply at_last_ext. intros t.
      destruct b1, b2; try discriminate; reflexivity.
Qed.
End Builder.

(** ** [AddTweens] and [GetTweens] *)

Section Importing.
Context {T : Type} `{TweenValue T}.
Implicit Types (s : STween T) (tween : TweenData T) (deltaTime : float)
  (vec : list (TweenData T)).

(** [AddTweens] appends the given records in their order behind the stored
    ones, which it leaves untouched; the appended records are copies with
    the identifiers [m_lastTweenIndex], [m_lastTweenIndex + 1], ... (one
    less than their positions when the index is in step with the vector),
    and [m_lastTweenIndex] grows by their number. Adding two lists one
    after the other is adding their concatenation. *)
Theorem AddTweens_appends (tweens tweens' : list (TweenData T)) s :
  m_tweenVec (AddTweens tweens s)
    = m_tweenVec s ++ renumber (m_lastTweenIndex s) tweens
  /\ m_lastTweenIndex (AddTweens tweens s)
     = m_lastTweenIndex s + Z.of_nat (length tweens)
  /\ (forall k : nat,
        m_tweenVec (AddTweens tweens s) !! (length (m_tweenVec s) + k)%nat
          = option_map (set_tweenID (m_lastTweenIndex s + Z.of_nat k))
              (tweens !! k))
  /\ AddTweens tweens' (AddTweens tweens s) = AddTweens (tweens ++ tweens') s.
Proof.
  assert (Happ : AddTweens tweens' (AddTweens tweens s)
                 = AddTweens (tweens ++ tweens') s)
    by (unfold AddTweens; rewrite fold_left_app; reflexivity).
  rewrite (AddTweens_spec tweens s). simpl. repeat split.
  - intros k. rewrite lookup_app_r by lia.
    replace (length (m_tweenVec s) + k - length (m_tweenVec s))%nat with k
      by lia.
    unfold renumber. rewrite list_lookup_imap.
    destruct (tweens !! k); reflexivity.
  - rewrite <- Happ, (AddTweens_spec tweens s). reflexivity.
Qed.

Lemma imap_set_tweenID_same (f1 f2 : nat -> Z) vec :
  Forall2 same_but_id
    (imap (fun k c => set_tweenID (f1 k) c) vec)
    (imap (fun k c => set_tweenID (f2 k) c) vec)
  /\ Forall2 same_but_id (imap (fun k c => set_tweenID (f1 k) c) vec) vec.
Proof.
  revert f1 f2. induction vec as [|tween vec IH]; intros f1 f2; simpl.
  - split; constructor.
  - destruct (IH (fun k => f1 (S k)) (fun k => f2 (S k))) as [IH1 IH2].
    split; constructor; try reflexivity; assumption.
Qed.

Lemma renumber_same (k1 k2 : Z) vec :
  Forall2 same_but_id (renumber k1 vec) (renumber k2 vec).
Proof. apply imap_set_tweenID_same. Qed.

Lemma Update_body_same deltaTime counter tween1 tween2 :
  same_but_id tween1 tween2 ->
  same_but_id (out_tween (Update_body deltaTime counter tween1))
              (out_tween (Update_body deltaTime counter tween2))
  /\ out_events (Update_body deltaTime counter tween1)
     = out_events (Update_body deltaTime counter tween2)
  /\ out_delete (Update_body deltaTime counter tween1)
     = out_delete (Update_body deltaTime counter tween2)
  /\ out_add (Update_body deltaTime counter tween1)
     = out_add (Update_body deltaTime counter tween2).
Proof.
  destruct tween1, tween2. unfold same_but_id. simpl. intros [= -> -> -> -> -> -> -> -> -> -> -> ->].
  unfold Update_body, tween_value, snap_value, write_events, step_events,
    finish_events, same_but_id. simpl.
  destruct fromReady1; [destruct (F32.geb timeCounter1 duration1)|];
    simpl; repeat split.
Qed.

Lemma Update_loop_same deltaTime vec1 vec2 :
  Forall2 same_but_id vec1 vec2 ->
  forall counter,
    Forall2 same_but_id (pass_vec (Update_loop deltaTime counter vec1))
                        (pass_vec (Update_loop deltaTime counter vec2))
    /\ pass_events (Update_loop deltaTime counter vec1)
       = pass_events (Update_loop deltaTime counter vec2)
    /\ tweensToAdd (Update_loop deltaTime counter vec1)
       = tweensToAdd (Update_loop deltaTime counter vec2)
    /\ tweensToDelete (Update_loop deltaTime counter vec1)
       = tweensToDelete (Update_loop deltaTime counter vec2).
Proof.
  induction 1 as [|tween1 tween2 vec1 vec2 Hs _ IH]; intros counter; simpl.
  - repeat split. constructor.
  - destruct (Update_body_same deltaTime counter _ _ Hs) as (Ht & -> & -> & ->).
    destruct (IH (counter + 1)) as (Hv & -> & -> & ->).
    repeat split. constructor; assumption.
Qed.

Lemma removelast_same vec1 vec2 :
  Forall2 same_but_id vec1 vec2 ->
  Forall2 same_but_id (removelast vec1) (removelast vec2).
Proof.
  induction 1 as [|tween1 tween2 vec1 vec2 Hs Hv IH]; simpl.
  - constructor.
  - destruct Hv; [constructor|]. constructor; assumption.
Qed.

Lemma delete_loop_same toDelete s1 s2 :
  Forall2 same_but_id (m_tweenVec s1) (m_tweenVec s2) ->
  Forall2 same_but_id (m_tweenVec (delete_loop toDelete s1))
                      (m_tweenVec (delete_loop toDelete s2)).
Proof.
  unfold delete_loop. generalize (rev toDelete) as l. intros l.
  revert s1 s2. induction l as [|i l IH]; intros s1 s2 Hs; simpl.
  - assumption.
  - apply IH. unfold swap_remove.
    destruct (Forall2_last _ _ _ Hs) as [back1 back2 Hback|]; simpl.
    + apply removelast_same, Forall2_insert; assumption.
    + assumption.
Qed.

Lemma Update_same deltaTime s1 s2 :
  Forall2 same_but_id (m_tweenVec s1) (m_tweenVec s2) ->
  Forall2 same_but_id (m_tweenVec (Update deltaTime s1).1)
                      (m_tweenVec (Update deltaTime s2).1)
  /\ (Update deltaTime s1).2 = (Update deltaTime s2).2.
Proof.
  intros Hs. unfold Update. cbn [fst snd].
  destruct (Update_loop_same deltaTime _ _ Hs 0) as (Hv & -> & -> & ->).
  split; [|reflexivity].
  rewrite !AddTweens_spec. cbn [m_tweenVec].
  apply Forall2_app; [|apply renumber_same].
  apply delete_loop_same. exact Hv.
Qed.

(** The documented way of copying a registry, [a.AddTweens(b.GetTweens())]
    on an empty [a]: the copy holds [b]'s records with other identifiers,
    and from then on every sequence of [Update] calls performs on [a] the
    same stores and callback invocations, with the same values in the same
    order, as on [b]. The identifiers have no influence on the events. *)
Theorem AddTweens_GetTweens_behaves_alike (b : STween T) (idx : Z)
  (dts : list float) :
  Forall2 same_but_id
    (GetTweens (AddTweens (GetTweens b) (mkSTween idx []))) (GetTweens b)
  /\ (Updates dts (AddTweens (GetTweens b) (mkSTween idx []))).2
     = (Updates dts b).2.
Proof.
  assert (Hstart : Forall2 same_but_id
            (m_tweenVec (AddTweens (GetTweens b) (mkSTween idx [])))
            (m_tweenVec b)).
  { rewrite AddTweens_spec. simpl. unfold GetTweens, renumber.
    apply (imap_set_tweenID_same (fun k => idx + Z.of_nat k) (fun _ => 0)). }
  split; [exact Hstart|].
  revert Hstart. generalize (AddTweens (GetTweens b) (mkSTween idx [])) as a.
  revert b. induction dts as [|deltaTime dts IH]; intros b a Hs.
  - reflexivity.
  - rewrite !Updates_cons.
    destruct (Update_same deltaTime _ _ Hs) as [Hs' ->].
    rewrite (IH _ _ Hs'). reflexivity.
Qed.
End Importing.

(** ** A tween whose duration was never set *)

Section ZeroDuration.
Implicit Types (x start endv : float) (tween : TweenData float).

Lemma F32_mul_nan_r x : F32.mul x S754_nan = S754_nan.
Proof. destruct x; reflexivity. Qed.

(** Every easing function returns NaN at a NaN position. *)
Lemma ease_nan (e : Z) start endv : ease e S754_nan start endv = S754_nan.
Proof.
  assert (Hcases : forall f : float -> float -> float -> float,
             (f = Linear \/ f = QuadIn \/ f = QuadOut \/ f = QuadInOut
              \/ f = CubicIn \/ f = CubicOut \/ f = CubicInOut
              \/ f = QuintIn \/ f = QuintOut \/ f = QuintInOut
              \/ f = BackIn \/ f = BackOut \/ f = BackInOut) ->
             f S754_nan start endv = S754_nan).
  { intros f Hf.
    repeat (destruct Hf as [-> | Hf]); [.. | subst f];
      cbv [Linear QuadIn QuadOut QuadInOut CubicIn CubicOut CubicInOut
           QuintIn QuintOut QuintInOut BackIn BackOut BackInOut
           vsub vadd vmul vdiv float_TweenValue];
      change (F32.mul S754_nan F32.two) with S754_nan;
      change (F32.div S754_nan (F32.div F32.one F32.two)) with S754_nan;
      change (F32.sub S754_nan F32.one) with S754_nan;
      change (F32.sub S754_nan F32.two) with S754_nan;
      change (F32.ltb S754_nan F32.one) with false;
      cbv iota;
      change (F32.sub S754_nan F32.one) with S754_nan;
      change (F32.sub S754_nan F32.two) with S754_nan;
      repeat first
        [ rewrite F32_mul_nan_r
        | change (F32.mul S754_nan ?y) with S754_nan
        | change (F32.add S754_nan ?y) with S754_nan
        | change (F32.sub S754_nan ?y) with S754_nan ];
      reflexivity. }
  unfold ease.
  destruct e as [|p|p]; [apply Hcases; tauto | | apply Hcases; tauto].
  do 4 (try (destruct p as [p|p|])); apply Hcases; tauto.
Qed.

(** [From] leaves [duration] and [timeCounter] at zero. If [Time] is not
    called, the first [Update] divides zero by zero: whatever the easing
    and the two ends, the value it stores in the target and passes to
    [onStep] is NaN; the same call then completes the record, so a
    by-pointer target ends on the boundary value. *)
Theorem unset_duration_gives_NaN tween deltaTime counter
  (Hready : fromReady tween = true)
  (Hduration : duration tween = F32.zero)
  (Hcounter : timeCounter tween = F32.zero) :
  tween_value tween = S754_nan
  /\ Update_body deltaTime counter tween =
       mkOutcome (retire deltaTime counter tween)
         ((write_events tween S754_nan ++ step_events tween S754_nan)
            ++ write_events tween (snap_value tween) ++ finish_events tween)
         true (endTween tween).
Proof.
  assert (Hnan : tween_value tween = S754_nan).
  { unfold tween_value. rewrite Hduration, Hcounter.
    change (F32.div F32.zero F32.zero) with S754_nan. apply ease_nan. }
  split; [exact Hnan|].
  rewrite Update_body_completes, Hnan; [reflexivity|].
  unfold completes. rewrite Hready, Hduration, Hcounter. reflexivity.
Qed.
End ZeroDuration.

Lemma unset_duration_gives_NaN_witness :
  tween_value Demo.unconfigured = S754_nan
  /\ out_events (Update_body F32.half 0 Demo.unconfigured) =
       [EvWrite (Some Demo.x) S754_nan; EvStep Demo.cbStep S754_nan;
        EvWrite (Some Demo.x) Demo.garbage].
Proof.
  destruct (unset_duration_gives_NaN Demo.unconfigured F32.half 0)
    as [Hv Hb]; try reflexivity.
  split; [exact Hv|]. rewrite Hb. reflexivity.
Defined.

(** ** The earlier revision of [Update] *)

Section Earlier.
Context {T : Type} `{TweenValue T}.
Implicit Types (s : STween T) (tween : TweenData T) (deltaTime : float)
  (vec : list (TweenData T)).

Lemma Part000_body_running deltaTime tween :
  running tween = true ->
  Part000.Update_body deltaTime tween =
    (set_timeCounter (F32.add (timeCounter tween) deltaTime) tween,
     [EvWrite (initialValue tween) (tween_value tween)]
       ++ step_events tween (tween_value tween), [], []).
Proof.
  unfold running, Part000.Update_body. intros Hr.
  apply andb_prop in Hr as [-> Hge]. apply negb_true_iff in Hge.
  rewrite Hge. reflexivity.
Qed.

Lemma Part000_body_completes deltaTime tween :
  completes tween = true ->
  Part000.Update_body deltaTime tween =
    (set_timeCounter (F32.add (timeCounter tween) deltaTime)
       (set_fromReady false tween),
     ([EvWrite (initialValue tween) (tween_value tween)]
        ++ step_events tween (tween_value tween))
       ++ [EvWrite (initialValue tween) (snap_value tween)]
       ++ finish_events tween,
     [set_fromReady false tween], endTween tween).
Proof.
  unfold completes, Part000.Update_body. intros Hc.
  apply andb_prop in Hc as [-> ->]. reflexivity.
Qed.

Lemma Part000_body_leftover deltaTime tween :
  fromReady tween = false ->
  Part000.Update_body deltaTime tween = (tween, [], [], []).
Proof. unfold Part000.Update_body. intros ->. reflexivity. Qed.

(** In the earlier revision a record that completes, alone in its
    registry, is removed by the same [Update] only if adding the time step
    leaves its counter equal to what it was (and its [finalValue] equals
    itself): otherwise [std::find] finds nothing and the record stays,
    inactive, in front of its chain records. The stores and callbacks are
    the same in both cases. *)
Theorem Part000_completed_removed_iff deltaTime idx tween
  (Hdone : completes tween = true) :
  Part000.Update deltaTime (mkSTween idx [tween]) =
    (if veqb (finalValue tween) (finalValue tween)
        && F32.eqb (F32.add (timeCounter tween) deltaTime) (timeCounter tween)
     then AddTweens (endTween tween) (mkSTween (idx - 1) [])
     else AddTweens (endTween tween)
            (mkSTween idx
               [set_timeCounter (F32.add (timeCounter tween) deltaTime)
                  (set_fromReady false tween)]),
     ([EvWrite (initialValue tween) (tween_value tween)]
        ++ step_events tween (tween_value tween))
       ++ [EvWrite (initialValue tween) (snap_value tween)]
       ++ finish_events tween).
Proof.
  unfold Part000.Update. cbn [m_tweenVec Part000.Update_loop].
  rewrite Part000_body_completes by assumption.
  cbn [app fold_left]. rewrite !app_nil_r.
  unfold Part000.delete_one. cbn [m_tweenVec Part000.find_erase].
  unfold Part000.TweenData_eqb. cbn [tweenID initialValue finalValue
    timeCounter reversed easing set_timeCounter set_fromReady].
  rewrite !Z.eqb_refl, bool_decide_eq_true_2 by reflexivity.
  assert (Hrefl : Bool.eqb (reversed tween) (reversed tween) = true)
    by (destruct (reversed tween); reflexivity).
  rewrite Hrefl, andb_true_r, andb_true_r. cbn [andb].
  destruct (veqb (finalValue tween) (finalValue tween)
            && F32.eqb (F32.add (timeCounter tween) deltaTime)
                 (timeCounter tween)); reflexivity.
Qed.

Lemma Part000_find_erase_length (oldTween : TweenData T) vec vec' :
  Part000.find_erase oldTween vec = Some vec' ->
  length vec = S (length vec').
Proof.
  revert vec'. induction vec as [|tween vec IH]; intros vec'; simpl.
  - discriminate.
  - destruct (Part000.TweenData_eqb tween oldTween).
    + intros [= <-]. reflexivity.
    + destruct (Part000.find_erase oldTween vec) as [rest|]; simpl;
        [|discriminate].
      intros [= <-]. simpl. rewrite (IH rest); reflexivity.
Qed.

Lemma Part000_delete_inv (del : list (TweenData T)) s :
  STween_inv s -> STween_inv (fold_left Part000.delete_one del s).
Proof.
  revert s. induction del as [|oldTween del IH]; intros s Hinv; simpl.
  - assumption.
  - apply IH. unfold Part000.delete_one.
    destruct (Part000.find_erase oldTween (m_tweenVec s)) as [vec'|] eqn:Hf;
      [|assumption].
    apply Part000_find_erase_length in Hf.
    unfold STween_inv in *. simpl. lia.
Qed.

Lemma Part000_loop_length deltaTime vec :
  length (Part000.Update_loop deltaTime vec).1.1.1 = length vec.
Proof.
  induction vec as [|tween vec IH]; simpl; [reflexivity|].
  destruct (Part000.Update_body deltaTime tween) as [[[tween' ev] del] add].
  destruct (Part000.Update_loop deltaTime vec) as [[[vec' evs] dels] adds].
  simpl in *. rewrite IH. reflexivity.
Qed.

(** The earlier revision, too, keeps [m_lastTweenIndex] at the number of
    stored records minus one: it lowers the index only when [erase] has
    removed a record. *)
Theorem Part000_Update_inv deltaTime s (Hinv : STween_inv s) :
  STween_inv (Part000.Update deltaTime s).1.
Proof.
  unfold Part000.Update.
  pose proof (Part000_loop_length deltaTime (m_tweenVec s)) as Hlen.
  destruct (Part000.Update_loop deltaTime (m_tweenVec s))
    as [[[vec ev] del] add]. cbn [fst snd] in *.
  rewrite AddTweens_spec.
  assert (Hdel : STween_inv
            (fold_left Part000.delete_one del (mkSTween (m_lastTweenIndex s) vec))).
  { apply Part000_delete_inv. unfold STween_inv in *. simpl. lia. }
  unfold STween_inv in *. cbn [m_lastTweenIndex m_tweenVec].
  rewrite length_app. unfold renumber. rewrite length_imap. lia.
Qed.

Lemma Part000_loop_inactive deltaTime vec :
  Forall (fun tween => fromReady tween = false) vec ->
  Part000.Update_loop deltaTime vec = (vec, [], [], []).
Proof.
  induction 1 as [|tween vec Hoff _ IH]; simpl; [reflexivity|].
  rewrite Part000_body_leftover, IH by assumption. reflexivity.
Qed.

(** On a registry that holds only inactive records, [Update] of the
    earlier revision returns the registry unchanged, performs no store and
    invokes no callback, where [STween.h] empties the registry. *)
Theorem Part000_Update_ignores_inactive deltaTime s
  (Hoff : Forall (fun tween => fromReady tween = false) (m_tweenVec s)) :
  Part000.Update deltaTime s = (s, []).
Proof.
  unfold Part000.Update. rewrite Part000_loop_inactive by assumption.
  destruct s. reflexivity.
Qed.

Lemma Part000_loop_events deltaTime vec :
  Forall (fun tween => fromReady tween && negb (byPointer tween) = false) vec ->
  (Part000.Update_loop deltaTime vec).1.1.2 =
    flat_map (fun tween => if fromReady tween then events_of tween else []) vec.
Proof.
  induction 1 as [|tween vec Hbp _ IH]; simpl; [reflexivity|].
  destruct (Part000.Update_loop deltaTime vec) as [[[vec' evs] dels] adds].
  simpl in IH. subst evs. unfold events_of, write_events.
  destruct (running_completes_leftover tween)
    as [(Hr & Hc & Hf)|[(Hr & Hc & Hf)|(Hr & Hc & Hf)]];
    rewrite Hf in Hbp |- *; rewrite ?Hc.
  - rewrite Part000_body_running by assumption.
    destruct (byPointer tween); [|discriminate].
    cbn [fst snd]. rewrite app_nil_r. reflexivity.
  - rewrite Part000_body_completes by assumption.
    destruct (byPointer tween); [|discriminate]. reflexivity.
  - rewrite Part000_body_leftover by assumption. reflexivity.
Qed.

(** On a registry whose active records are all by-pointer, the two
    revisions perform the same stores and callback invocations in one
    [Update]; they differ only in the records they keep and renumber. *)
Theorem revisions_same_events deltaTime s
  (Hbp : Forall (fun tween => fromReady tween && negb (byPointer tween) = false)
           (m_tweenVec s)) :
  (Part000.Update deltaTime s).2 = (Update deltaTime s).2.
Proof.
  rewrite Update_events, <- (Part000_loop_events deltaTime _ Hbp).
  unfold Part000.Update.
  destruct (Part000.Update_loop deltaTime (m_tweenVec s))
    as [[[vec ev] del] add]. reflexivity.
Qed.

Lemma Part000_loop_all_running deltaTime vec :
  Forall (fun tween => running tween = true) vec ->
  exists ev,
    Part000.Update_loop deltaTime vec =
      (map (fun tween =>
              set_timeCounter (F32.add (timeCounter tween) deltaTime) tween) vec,
       ev, [], []).
Proof.
  induction 1 as [|tween vec Hrun _ [ev IH]]; simpl.
  - eexists. reflexivity.
  - rewrite IH, Part000_body_running by assumption. eexists. reflexivity.
Qed.

Lemma map_imap_advance_same deltaTime (f : nat -> Z) vec :
  Forall2 same_but_id
    (map (fun tween =>
            set_timeCounter (F32.add (timeCounter tween) deltaTime) tween) vec)
    (imap (fun i tween => advance deltaTime (f i) tween) vec).
Proof.
  revert f. induction vec as [|tween vec IH]; intros f; simpl; constructor.
  - reflexivity.
  - apply (IH (fun i => f (S i))).
Qed.

(** While nothing completes, the earlier revision keeps the records in
    order and adds the time step to every counter, as [STween.h] does;
    only the identifiers differ, which [STween.h] sets to the indices and
    the earlier revision leaves as they are. *)
Theorem revisions_same_records deltaTime s
  (Hall : Forall (fun tween => running tween = true) (m_tweenVec s)) :
  (Part000.Update deltaTime s).1 =
    mkSTween (m_lastTweenIndex s)
      (map (fun tween =>
              set_timeCounter (F32.add (timeCounter tween) deltaTime) tween)
         (m_tweenVec s))
  /\ m_lastTweenIndex (Part000.Update deltaTime s).1
     = m_lastTweenIndex (Update deltaTime s).1
  /\ Forall2 same_but_id (GetTweens (Part000.Update deltaTime s).1)
       (GetTweens (Update deltaTime s).1).
Proof.
  unfold Update. rewrite (Update_loop_all_running deltaTime _ Hall 0).
  cbn [pass_vec pass_events tweensToAdd tweensToDelete].
  unfold delete_loop. cbn [rev fold_left].
  unfold Part000.Update.
  destruct (Part000_loop_all_running deltaTime _ Hall) as [ev ->].
  cbn [fold_left AddTweens fst snd m_lastTweenIndex m_tweenVec GetTweens].
  repeat split. apply map_imap_advance_same.
Qed.
End Earlier.

Lemma Part000_completed_removed_iff_witness :
  m_tweenVec (Part000.Update F32.one (mkSTween 0 [Demo.due])).1 =
    [set_timeCounter F32.two (set_fromReady false Demo.due);
     set_tweenID 0
       (mkTweenData (-1) true false false nullptr (Demo.f 7) (Demo.f 9)
          F32.one EasingFunction.Linear F32.zero None None [])]
  /\ m_tweenVec (Part000.Update F32.zero (mkSTween 0 [Demo.due])).1 =
       [set_tweenID (-1)
          (mkTweenData (-1) true false false nullptr (Demo.f 7) (Demo.f 9)
             F32.one EasingFunction.Linear F32.zero None None [])].
Proof.
  split.
  - rewrite (Part000_completed_removed_iff F32.one 0 Demo.due)
      by (vm_compute; reflexivity).
    vm_compute. reflexivity.
  - rewrite (Part000_completed_removed_iff F32.zero 0 Demo.due)
      by (vm_compute; reflexivity).
    vm_compute. reflexivity.
Defined.

Lemma Part000_Update_inv_witness :
  STween_inv (Part000.Update F32.one Demo.plain_registry).1.
Proof.
  apply (Part000_Update_inv F32.one Demo.plain_registry). reflexivity.
Defined.

Lemma Part000_Update_ignores_inactive_witness :
  Part000.Update F32.one Demo.left_overs = (Demo.left_overs, []).
Proof.
  apply (Part000_Update_ignores_inactive F32.one Demo.left_overs).
  repeat constructor.
Defined.

Lemma revisions_same_events_witness :
  (Part000.Update F32.one (mkSTween 0 [Demo.due])).2
    = (Update F32.one (mkSTween 0 [Demo.due])).2.
Proof.
  apply (revisions_same_events F32.one (mkSTween 0 [Demo.due])).
  repeat constructor.
Defined.

Lemma revisions_same_records_witness :
  Forall2 same_but_id (GetTweens (Part000.Update F32.one Demo.two_running).1)
    (GetTweens (Update F32.one Demo.two_running).1).
Proof.
  apply (revisions_same_records F32.one Demo.two_running).
  repeat constructor.
Defined.

(** ** Storage that is not a target *)

Section Frame.
Context {T : Type} `{TweenValue T}.
Implicit Types (s : STween T) (tween : TweenData T) (deltaTime : float)
  (h : heap T).

Lemma exec_events_frame (run : Callbacks T) (es : list (Event T)) (a : addr) :
  (forall cb v h1 h2, run cb v h1 = Some h2 -> h2 !! a = h1 !! a) ->
  (forall v, ~ In (EvWrite (Some a) v) es) ->
  forall h h', exec_events run h es = Some h' -> h' !! a = h !! a.
Proof.
  intros Hrun. induction es as [|e es IH]; intros Hfree h h'; simpl.
  - intros [= <-]. reflexivity.
  - assert (Hrest : forall v, ~ In (EvWrite (Some a) v) es)
      by (intros v Hv; apply (Hfree v); right; exact Hv).
    destruct (exec_event run h e) as [h1|] eqn:He; [|discriminate].
    intros Hex. rewrite (IH Hrest _ _ Hex).
    destruct e as [[b|] v|cb v|cb]; simpl in He;
      try discriminate; try (eapply Hrun; eassumption).
    destruct (h !! b); [|discriminate]. injection He as <-.
    apply lookup_insert_ne. intros ->. apply (Hfree v). left. reflexivity.
Qed.

(** [Update] itself changes the caller's storage only at the targets of
    the active by-pointer records: an address that is the [initialValue]
    of no such record, and that the callbacks leave alone, holds after the
    call what it held before. *)
Theorem Update_leaves_other_storage (run : Callbacks T) deltaTime s h h'
  (a : addr)
  (Hdefined : exec_events run h (Update deltaTime s).2 = Some h')
  (Hother : Forall (fun tween => writes_to a tween = false) (m_tweenVec s))
  (Hrun : forall cb v h1 h2, run cb v h1 = Some h2 -> h2 !! a = h1 !! a) :
  h' !! a = h !! a.
Proof.
  eapply exec_events_frame; [exact Hrun| |exact Hdefined].
  intros v Hin. rewrite Update_events in Hin.
  apply in_flat_map in Hin as (tween & Htween & Hev).
  destruct (fromReady tween) eqn:Hready; [|contradiction].
  apply events_of_write in Hev as (Hbp & Hp & _).
  rewrite Forall_forall in Hother.
  apply list_elem_of_In, Hother in Htween.
  unfold writes_to in Htween. rewrite Hready, Hbp, Hp in Htween.
  rewrite bool_decide_eq_true_2 in Htween by reflexivity. discriminate.
Qed.
End Frame.

Lemma Update_leaves_other_storage_witness :
  ({[ Demo.x := Demo.f 10; Demo.y := Demo.f 10; 5%nat := Demo.f 7 ]}
     : heap float) !! 5%nat
    = ({[ Demo.x := F32.zero; Demo.y := F32.zero; 5%nat := Demo.f 7 ]}
         : heap float) !! 5%nat.
Proof.
  apply (Update_leaves_other_storage Demo.setters F32.one
           (mkSTween 0 [Demo.due])
           {[ Demo.x := F32.zero; Demo.y := F32.zero; 5%nat := Demo.f 7 ]}
           {[ Demo.x := Demo.f 10; Demo.y := Demo.f 10; 5%nat := Demo.f 7 ]}
           5%nat).
  - vm_compute. reflexivity.
  - repeat constructor.
  - intros cb [value|] h1 h2; unfold Demo.setters.
    + destruct (h1 !! Demo.y); [|discriminate].
      intros [= <-]. apply lookup_insert_ne. discriminate.
    + intros [= <-]. reflexivity.
Defined.

Lemma Update_defined_iff_witness :
  (exists h' : heap float,
      exec_events Demo.observers {[ Demo.x := F32.zero ]}
        (Update F32.one (mkSTween 0 [Demo.due])).2 = Some h')
  /\ ~ (exists h' : heap float,
          exec_events Demo.observers {[ Demo.x := F32.zero ]}
            (Update F32.one Demo.with_null_target).2 = Some h')
  /\ ~ (exists h' : heap float,
          exec_events Demo.observers ∅
            (Update F32.one (mkSTween 0 [Demo.due])).2 = Some h').
Proof.
  assert (Hrun : forall cb v (h : heap float),
             exists h', Demo.observers cb v h = Some h' /\ dom h' = dom h)
    by (intros cb v h; exists h; split; reflexivity).
  split; [|split].
  - apply (Update_defined_iff Demo.observers F32.one (mkSTween 0 [Demo.due])
             {[ Demo.x := F32.zero ]} Hrun).
    repeat constructor.
  - intros Hdef.
    apply (Update_defined_iff Demo.observers F32.one Demo.with_null_target
             {[ Demo.x := F32.zero ]} Hrun) in Hdef.
    apply Forall_cons in Hdef as [_ Hdef].
    apply Forall_cons in Hdef as [Hnull _].
    vm_compute in Hnull. discriminate.
  - intros Hdef.
    apply (Update_defined_iff Demo.observers F32.one (mkSTween 0 [Demo.due])
             ∅ Hrun) in Hdef.
    apply Forall_cons in Hdef as [Hdangling _].
    vm_compute in Hdangling. discriminate.
Defined.

(** ** The call on which a tween completes *)

Section Completion.
Context {T : Type} `{TweenValue T}.
Implicit Types (s : STween T) (tween : TweenData T) (deltaTime : float)
  (vec : list (TweenData T)) (h : heap T).

Lemma set_timeCounter_advance (c : float) (id : Z) deltaTime counter tween :
  set_tweenID id (set_timeCounter c (advance deltaTime counter tween)) =
    set_tweenID id (set_timeCounter c tween).
Proof. destruct tween; reflexivity. Qed.

(** While the time accumulated before a call stays below the duration,
    the record stays stored and active, wherever the compaction moves it,
    and only its counter and its identifier change. *)
Lemma Updates_tracks (dts : list float) :
  forall s (i : nat) tween,
    m_tweenVec s !! i = Some tween ->
    fromReady tween = true ->
    (forall n, (n < length dts)%nat ->
       F32.geb (fold_left F32.add (take n dts) (timeCounter tween))
         (duration tween) = false) ->
    exists (j : nat) (id : Z),
      m_tweenVec (Updates dts s).1 !! j =
        Some (set_tweenID id
                (set_timeCounter (fold_left F32.add dts (timeCounter tween))
                   tween)).
Proof.
  induction dts as [|deltaTime dts IH]; intros s i tween Hi Hready Hbelow.
  - exists i, (tweenID tween). simpl. rewrite Hi. destruct tween; reflexivity.
  - assert (Hrun : running tween = true).
    { pose proof (Hbelow 0%nat ltac:(simpl; lia)) as H0. simpl in H0.
      unfold running. rewrite Hready, H0. reflexivity. }
    assert (Hin : In (advance deltaTime (Z.of_nat i) tween)
                    (m_tweenVec (Update deltaTime s).1)).
    { destruct (Update_shape deltaTime s) as (kept & Hperm & -> & _).
      apply in_app_iff. left.
      eapply Permutation_in; [symmetry; exact Hperm|].
      apply (survivors_lookup deltaTime 0 _ i tween); assumption. }
    apply list_elem_of_In, list_elem_of_lookup in Hin as [j Hj].
    destruct (IH _ j _ Hj) as (j' & id & Hj').
    + exact Hready.
    + intros n Hn. apply (Hbelow (S n)). simpl. lia.
    + exists j', id. rewrite Updates_cons_state, Hj'.
      rewrite set_timeCounter_advance. reflexivity.
Qed.

Lemma flat_map_block_allocated vec h :
  Forall (fun tween => valid_target h tween = true) vec ->
  Forall (fun e => match e with
                   | EvWrite p _ => exists a, p = Some a /\ a ∈ dom h
                   | _ => True
                   end) (flat_map block vec).
Proof.
  induction 1 as [|tween vec Hvalid _ IH]; simpl; [constructor|].
  apply Forall_app. split; [|exact IH].
  apply (block_valid (fun _ _ h => Some h)). exact Hvalid.
Qed.

Lemma flat_map_block_no_write vec (target : addr) v :
  Forall (fun tween => writes_to target tween = false) vec ->
  ~ In (EvWrite (Some target) v) (flat_map block vec).
Proof.
  intros Hother Hin. apply in_flat_map in Hin as (tween & Htween & Hev).
  unfold block in Hev.
  destruct (fromReady tween) eqn:Hready; [|contradiction].
  apply events_of_write in Hev as (Hbp & Hp & _).
  rewrite Forall_forall in Hother.
  apply list_elem_of_In, Hother in Htween.
  unfold writes_to in Htween. rewrite Hready, Hbp, Hp in Htween.
  rewrite bool_decide_eq_true_2 in Htween by reflexivity. discriminate.
Qed.

(** C1 (amended). A by-pointer tween is stored anywhere in a registry,
    among any other records, with [timeCounter = 0], and [Update] is
    called with [dts], where the accumulated time reaches the duration
    with the last call and not before. After these calls the record is
    still stored and active, at some index, with the accumulated time as
    its counter. It is the next [Update] call that detects completion:
    the last store of that call for this record puts exactly [finalValue]
    ([initialCpy] when reversed) in the target and the record's finish
    callback follows it. When that call is defined, the target holds this
    boundary value after the call, provided no record stored behind this
    one stores to the same target and the callbacks leave the target
    alone. *)
Theorem completion_on_next_Update s (i : nat) tween (target : addr)
  (dts : list float) (deltaTime : float)
  (Hstored : m_tweenVec s !! i = Some tween)
  (Hready : fromReady tween = true)
  (HbyPointer : byPointer tween = true)
  (Htarget : initialValue tween = Some target)
  (Hzero : timeCounter tween = F32.zero)
  (Hbelow : forall n, (n < length dts)%nat ->
      F32.geb (elapsed (take n dts)) (duration tween) = false)
  (Hreached : F32.eqb (elapsed dts) (duration tween) = true) :
  let s1 := (Updates dts s).1 in
  let boundary := if reversed tween then initialCpy tween else finalValue tween in
  exists (j : nat) (id : Z) (earlier : list (Event T)),
    m_tweenVec s1 !! j =
      Some (set_tweenID id (set_timeCounter (elapsed dts) tween))
    /\ (Update deltaTime s1).2 =
         earlier ++ [EvWrite (Some target) boundary] ++ finish_events tween
           ++ flat_map block (drop (S j) (m_tweenVec s1))
    /\ forall (run : Callbacks T) h,
         Forall (fun other => valid_target h other = true) (m_tweenVec s1) ->
         Forall (fun other => writes_to target other = false)
           (drop (S j) (m_tweenVec s1)) ->
         (forall cb v h1,
            exists h2, run cb v h1 = Some h2 /\ dom h2 = dom h1
                       /\ h2 !! target = h1 !! target) ->
         exists h',
           exec_events run h (Update deltaTime s1).2 = Some h'
           /\ h' !! target = Some boundary.
Proof.
  intros s1 boundary.
  destruct (Updates_tracks dts s i tween Hstored Hready) as (j & id & Hj).
  { intros n Hn. rewrite Hzero. apply Hbelow. assumption. }
  rewrite Hzero in Hj. fold (elapsed dts) in Hj. fold s1 in Hj.
  set (aged := set_tweenID id (set_timeCounter (elapsed dts) tween)) in *.
  assert (Hdone : completes aged = true).
  { unfold completes, aged. destruct tween; simpl in *. subst.
    apply F32_eqb_geb. assumption. }
  set (value := tween_value aged).
  assert (Hblock : block aged =
            ([EvWrite (Some target) value] ++ step_events tween value)
              ++ [EvWrite (Some target) boundary] ++ finish_events tween).
  { unfold block, events_of. rewrite Hdone.
    unfold aged, write_events, step_events, finish_events, snap_value,
      boundary.
    destruct tween; simpl in *. subst. reflexivity. }
  assert (Hev : (Update deltaTime s1).2 =
            (flat_map block (take j (m_tweenVec s1))
               ++ [EvWrite (Some target) value] ++ step_events tween value)
              ++ [EvWrite (Some target) boundary] ++ finish_events tween
              ++ flat_map block (drop (S j) (m_tweenVec s1))).
  { rewrite Update_events.
    change (flat_map (fun tween => if fromReady tween then events_of tween else []))
      with (flat_map (@block T _)).
    rewrite <- (take_drop_middle (m_tweenVec s1) j aged Hj) at 1.
    rewrite flat_map_app. simpl. rewrite Hblock, <- !app_assoc. reflexivity. }
  exists j, id. eexists. split; [exact Hj|]. split; [exact Hev|].
  intros run h Hvalid Hother Hrun.
  destruct (exec_events_allocated run (Update deltaTime s1).2) with (h := h)
    as (h' & Hh' & _).
  { intros cb v h1. destruct (Hrun cb v h1) as (h2 & Hh2 & Hdom & _). eauto. }
  { rewrite Update_events.
    change (flat_map (fun tween => if fromReady tween then events_of tween else []))
      with (flat_map (@block T _)).
    apply flat_map_block_allocated. exact Hvalid. }
  exists h'. split; [exact Hh'|].
  rewrite Hev, exec_events_app in Hh'.
  destruct (exec_events run h _) as [h1|] in Hh'; [|discriminate].
  simpl in Hh'. destruct (h1 !! target) in Hh'; [|discriminate].
  erewrite exec_events_frame; [apply lookup_insert_eq| | |exact Hh'].
  - intros cb v h2 h3 Hcb. destruct (Hrun cb v h2) as (h4 & Hh4 & _ & Hsame).
    congruence.
  - intros v Hin. apply in_app_or in Hin as [Hin|Hin].
    + unfold finish_events in Hin.
      destruct (finishCallback tween); simpl in Hin;
        [destruct Hin as [Hin|[]]; discriminate | contradiction].
    + revert Hin. apply flat_map_block_no_write. exact Hother.
Qed.
End Completion.

Lemma completion_on_next_Update_witness :
  exists h' : heap float,
    exec_events Demo.observers {[ Demo.x := F32.zero ]}
      (Update F32.half (Updates [F32.half; F32.half] Demo.behind_due).1).2
      = Some h'
    /\ h' !! Demo.x = Some (Demo.f 10).
Proof.
  destruct (completion_on_next_Update Demo.behind_due 1
              (mkTweenData 0 true true false (Some Demo.x) F32.zero
                 (Demo.f 10) F32.one EasingFunction.Linear F32.zero
                 (Some Demo.cbFinish) None [])
              Demo.x [F32.half; F32.half] F32.half)
    as (j & id & earlier & _ & _ & Hstorage).
  - reflexivity.
  - reflexivity.
  - reflexivity.
  - reflexivity.
  - reflexivity.
  - intros [|[|n]] Hn; [vm_compute; reflexivity .. | simpl in Hn; lia].
  - vm_compute. reflexivity.
  - apply (Hstorage Demo.observers {[ Demo.x := F32.zero ]}).
    + vm_compute. repeat constructor.
    + assert (Hlen : length (m_tweenVec
                               (Updates [F32.half; F32.half] Demo.behind_due).1)
                     = 1%nat) by (vm_compute; reflexivity).
      rewrite drop_ge by lia. constructor.
    + intros cb v h1. exists h1. repeat split.
Defined.

(** C1 (counterexample). The single call [Update(2)] brings the
    accumulated time of a two second tween from 0 to 8 to its duration,
    and what that call delivers is 0, not 8, the record staying active:
    for [From(0.0f).To(8).Time(2).OnStep(cbStep)] the callback is given 0,
    and for the same tween on [x], handed to [AddTween], 0 is stored in
    [x]. *)
Lemma one_call_reaching_duration :
  F32.eqb (elapsed [F32.two]) F32.two = true
  /\ F32.zero <> Demo.f 8
  /\ (exists w,
         Demo.run (Demo.one_step ++ [CallUpdate F32.two]) = Some w
         /\ log w = [EvStep Demo.cbStep F32.zero]
         /\ map fromReady (Demo.records w) = [true])
  /\ (exists w,
         Demo.run [CallAddTween Demo.handmade; CallUpdate F32.two] = Some w
         /\ log w = [EvWrite (Some Demo.x) F32.zero]
         /\ storage w !! Demo.x = Some F32.zero
         /\ map fromReady (Demo.records w) = [true]).
Proof.
  split; [vm_compute; reflexivity|]. split; [discriminate|].
  split; eexists; vm_compute; repeat split.
Qed.

(** Why the records stored behind matter: a five second tween to 20 on
    the same [x], stored behind the completing one, is evaluated after it
    and leaves its own value, 4, in [x]. *)
Example later_record_overwrites_target :
  (Update F32.one Demo.two_on_x).2 =
    [EvWrite (Some Demo.x) (Demo.f 10); EvWrite (Some Demo.x) (Demo.f 10);
     EvFinish Demo.cbFinish; EvWrite (Some Demo.x) (Demo.f 4)]
  /\ exists h' : heap float,
       exec_events Demo.observers {[ Demo.x := F32.zero ]}
         (Update F32.one Demo.two_on_x).2 = Some h'
       /\ h' !! Demo.x = Some (Demo.f 4).
Proof.
  split; [vm_compute; reflexivity|]. eexists. vm_compute. split; reflexivity.
Qed.

(** ** The one second tween on [x], call by call *)

Lemma Part000_Updates_inactive {T : Type} `{TweenValue T} (dts : list float)
  (s : STween T) :
  Forall (fun tween => fromReady tween = false) (m_tweenVec s) ->
  Part000.Updates dts s = (s, []).
Proof.
  intros Hoff.
  assert (Hone : forall deltaTime, Part000.Update deltaTime s = (s, [])).
  { intros deltaTime. unfold Part000.Update.
    rewrite Part000_loop_inactive by assumption. destruct s; reflexivity. }
  induction dts as [|deltaTime dts IH]; [reflexivity|].
  cbn [Part000.Updates]. rewrite Hone, IH. reflexivity.
Qed.

(** C2 (counterexample). In the earlier revision, where the program can
    be compiled: after the first [Update(0.5)] the storage [x] holds 0,
    not 5; after the second it holds 5, not 10, the record is still
    active and the finish callback has not been invoked. *)
Lemma by_pointer_two_Updates :
  (exists s h ev,
      Demo.by_pointer_after [F32.half] = Some (s, h, ev)
      /\ h !! Demo.x = Some F32.zero
      /\ F32.zero <> Demo.f 5)
  /\ (exists s h ev,
         Demo.by_pointer_after [F32.half; F32.half] = Some (s, h, ev)
         /\ h !! Demo.x = Some (Demo.f 5)
         /\ Demo.f 5 <> Demo.f 10
         /\ map fromReady (GetTweens s) = [true]
         /\ ~ In (EvFinish Demo.cbFinish) ev).
Proof.
  split; do 3 eexists; (split; [vm_compute; reflexivity|]);
    vm_compute; repeat split; try discriminate.
  intros [Hin|[Hin|[]]]; discriminate.
Qed.

(** C2 (amended). [From(&x).To(10).Time(1).Easing(Linear).OnFinish(cb)]
    with [x == 0] can be compiled in the earlier revision only, where it
    builds one record. There the first [Update(0.5)] stores 0 and the
    second stores 5, the record staying active; the third [Update(0.5)]
    stores 10 and invokes the finish callback, after which no stored
    record is active and no further [Update] call, whatever its argument,
    stores anything or invokes a callback, so the callback is invoked
    exactly once. Handed to [AddTween] of [STween.h], the same record
    gives the same stores and the same callback invocation on the same
    calls, and there the third call also removes it. *)
Theorem Part000_by_pointer_program :
  Demo.by_pointer = Some (mkSTween 0 [Demo.by_pointer_record])
  /\ (exists s h,
         Demo.by_pointer_after [F32.half]
           = Some (s, h, [EvWrite (Some Demo.x) F32.zero])
         /\ h !! Demo.x = Some F32.zero
         /\ map fromReady (GetTweens s) = [true])
  /\ (exists s h,
         Demo.by_pointer_after [F32.half; F32.half]
           = Some (s, h, [EvWrite (Some Demo.x) F32.zero;
                          EvWrite (Some Demo.x) (Demo.f 5)])
         /\ h !! Demo.x = Some (Demo.f 5)
         /\ map fromReady (GetTweens s) = [true])
  /\ (exists s h,
         Demo.by_pointer_after [F32.half; F32.half; F32.half]
           = Some (s, h, [EvWrite (Some Demo.x) F32.zero;
                          EvWrite (Some Demo.x) (Demo.f 5);
                          EvWrite (Some Demo.x) (Demo.f 10);
                          EvWrite (Some Demo.x) (Demo.f 10);
                          EvFinish Demo.cbFinish])
         /\ h !! Demo.x = Some (Demo.f 10)
         /\ Forall (fun tween => fromReady tween = false) (GetTweens s)
         /\ forall dts, Part000.Updates dts s = (s, []))
  /\ (exists s h,
         Demo.handed_over_after [F32.half; F32.half]
           = Some (s, h, [EvWrite (Some Demo.x) F32.zero;
                          EvWrite (Some Demo.x) (Demo.f 5)])
         /\ h !! Demo.x = Some (Demo.f 5)
         /\ map fromReady (GetTweens s) = [true])
  /\ (exists s h,
         Demo.handed_over_after [F32.half; F32.half; F32.half]
           = Some (s, h, [EvWrite (Some Demo.x) F32.zero;
                          EvWrite (Some Demo.x) (Demo.f 5);
                          EvWrite (Some Demo.x) (Demo.f 10);
                          EvWrite (Some Demo.x) (Demo.f 10);
                          EvFinish Demo.cbFinish])
         /\ h !! Demo.x = Some (Demo.f 10)
         /\ GetTweens s = []
         /\ forall dts, (Updates dts s).2 = []).
Proof.
  split; [vm_compute; reflexivity|].
  split; [do 2 eexists; split; [vm_compute; reflexivity|];
          vm_compute; split; reflexivity|].
  split; [do 2 eexists; split; [vm_compute; reflexivity|];
          vm_compute; split; reflexivity|].
  split.
  { do 2 eexists. split; [vm_compute; reflexivity|].
    split; [vm_compute; reflexivity|]. split.
    - repeat constructor.
    - intros dts. apply Part000_Updates_inactive. repeat constructor. }
  split; [do 2 eexists; split; [vm_compute; reflexivity|];
          vm_compute; split; reflexivity|].
  do 2 eexists. split; [vm_compute; reflexivity|].
  split; [vm_compute; reflexivity|]. split; [reflexivity|].
  intros dts. induction dts as [|deltaTime dts IH]; [reflexivity|].
  rewrite Updates_cons. exact IH.
Qed.
